(** * A plugin-based HTTP API host: index.js

    Shallow embedding of the module discovery / route binding engine
    ([loadModules]), the catalog endpoint ([GET /api/info]) and the JSON
    response envelope (the [res.json] middleware) of [src/index.js]. *)

From Stdlib Require Import String Ascii List ZArith NArith DecimalString.
From Stdlib Require Import Lia Bool Permutation PeanoNat.
Import ListNotations.
Local Open Scope string_scope.
Local Open Scope list_scope.
Set Warnings "-register-all".

(* ================================================================== *)
(** * JavaScript values *)
(* ================================================================== *)

Module Js.

(** The values the program handles.  Numbers are the integers (status
    codes, counters); the program only ever tests a number for being
    zero and prints it as a property key.  A function value is kept as its
    source text, which is what its string conversion yields; the model never
    calls one.  The property list of an object is in own-key order. *)
Inductive jsval : Type :=
| VUndefined
| VNull
| VBool (b : bool)
| VNum (n : Z)
| VStr (s : string)
| VArr (elems : list jsval)
| VObj (props : list (string * jsval))
| VFun (src : string).

(** [ToBoolean]. *)
Definition truthy (v : jsval) : bool :=
  match v with
  | VUndefined | VNull => false
  | VBool b => b
  | VNum n => negb (n =? 0)%Z
  | VStr s => negb (s =? "")
  | VArr _ | VObj _ | VFun _ => true
  end.

(** The [typeof] operator. *)
Definition typeof (v : jsval) : string :=
  match v with
  | VUndefined => "undefined"
  | VNull => "object"
  | VBool _ => "boolean"
  | VNum _ => "number"
  | VStr _ => "string"
  | VArr _ | VObj _ => "object"
  | VFun _ => "function"
  end.

(** [a || b]. *)
Definition js_or (a b : jsval) : jsval := if truthy a then a else b.

(** What a [throw] carries: an [Error] object with its message (raised by
    plugin code, or by the router), the engine's [TypeError] for the
    expression that could not be evaluated, or any other value a [throw]
    statement was given ([throw null], [throw "text"], ...). *)
Inductive js_error : Type :=
| Thrown (message : string)
| TypeError (expr : string)
| ThrownValue (value : jsval).

Inductive result (A : Type) : Type :=
| Ok (a : A)
| Throw (e : js_error).
Arguments Ok {A} a.
Arguments Throw {A} e.

Definition rbind {A B} (r : result A) (k : A -> result B) : result B :=
  match r with
  | Ok a => k a
  | Throw e => Throw e
  end.

(** ** Property lists in own-key order *)

Definition props (A : Type) : Type := list (string * A).

(** A key is an array index when it is the canonical decimal form of an
    integer below [2^32 - 1]; such keys are enumerated first, ascending. *)
Definition array_index (k : string) : option N :=
  match NilZero.uint_of_string k with
  | Some u =>
      let n := N.of_uint u in
      if (NilZero.string_of_uint (N.to_uint n) =? k) && (n <=? 4294967294)%N
      then Some n else None
  | None => None
  end.

Fixpoint obj_get {A} (k : string) (o : props A) : option A :=
  match o with
  | [] => None
  | (k', v) :: t => if k =? k' then Some v else obj_get k t
  end.

Definition obj_has {A} (k : string) (o : props A) : bool :=
  match obj_get k o with Some _ => true | None => false end.

Fixpoint obj_replace {A} (k : string) (v : A) (o : props A) : props A :=
  match o with
  | [] => []
  | (k', v') :: t =>
      if k =? k' then (k', v) :: t else (k', v') :: obj_replace k v t
  end.

Fixpoint obj_insert_index {A} (n : N) (k : string) (v : A) (o : props A)
  : props A :=
  match o with
  | [] => [(k, v)]
  | (k', v') :: t =>
      match array_index k' with
      | Some n' =>
          if (n' <? n)%N then (k', v') :: obj_insert_index n k v t
          else (k, v) :: (k', v') :: t
      | None => (k, v) :: (k', v') :: t
      end
  end.

(** [o[k] = v] on an own data property: an existing key keeps its place,
    a new index key goes among the indices, any other new key goes last. *)
Definition obj_set {A} (k : string) (v : A) (o : props A) : props A :=
  if obj_has k o then obj_replace k v o
  else match array_index k with
       | Some n => obj_insert_index n k v o
       | None => o ++ [(k, v)]
       end.

(** [v.k] for the property names this program reads ([meta], [onStart],
    [path], [method], [name], [description], [category], [author],
    [status], [apiSettings], [creator]): none of them is an array index,
    [length] or a member of [Object.prototype], so a plain object has them
    only as own properties, a primitive or an array has none of them, and
    reading from [undefined] or [null] throws.  (A function has a [name];
    the program reads [name] only from a descriptor whose [path] is a
    string, which a function value of this model is not.) *)
Definition get_prop (v : jsval) (k : string) : result jsval :=
  match v with
  | VUndefined | VNull => Throw (TypeError ("reading '" ++ k ++ "'"))
  | VObj ps => Ok (match obj_get k ps with Some x => x | None => VUndefined end)
  | _ => Ok VUndefined
  end.

Definition index_key (i : nat) : string :=
  NilZero.string_of_uint (Nat.to_uint i).

Fixpoint indexed (i : nat) (l : list jsval) : props jsval :=
  match l with
  | [] => []
  | x :: t => (index_key i, x) :: indexed (S i) t
  end.

(** Own enumerable properties, as object spread copies them.  The program
    spreads only values whose [typeof] is ["object"]: an array contributes
    its elements under their indices. *)
Definition own_entries (v : jsval) : props jsval :=
  match v with
  | VObj ps => ps
  | VArr l => indexed 0 l
  | _ => []
  end.

(** [{ ...init, ...src }] continued on an object under construction:
    every copied key is defined on the target in turn. *)
Definition spread_into (target : props jsval) (src : jsval) : props jsval :=
  fold_left (fun o kv => obj_set (fst kv) (snd kv) o) (own_entries src) target.

Fixpoint join (sep : string) (l : list string) : string :=
  match l with
  | [] => ""
  | [s] => s
  | s :: t => s ++ sep ++ join sep t
  end.

(** [String(v)], which is also the property key [v] is coerced to.
    Numbers print in plain decimal (they do below [10^21]); objects are
    plain data objects, without a [toString] of their own. *)
Fixpoint to_string (v : jsval) : string :=
  match v with
  | VUndefined => "undefined"
  | VNull => "null"
  | VBool true => "true"
  | VBool false => "false"
  | VNum n => NilZero.string_of_int (Z.to_int n)
  | VStr s => s
  | VArr l =>
      join "," (map (fun e => match e with
                              | VUndefined | VNull => ""
                              | _ => to_string e
                              end) l)
  | VObj _ => "[object Object]"
  | VFun src => src
  end.

(** ** Strings *)

(** [s.split(c)] for a one-character separator. *)
Fixpoint split_on (c : ascii) (s : string) : list string :=
  match s with
  | EmptyString => [""]
  | String a t =>
      if Ascii.eqb a c then "" :: split_on c t
      else match split_on c t with
           | h :: r => String a h :: r
           | [] => [String a ""]
           end
  end.

(** [s.includes(c)]. *)
Fixpoint includes (c : ascii) (s : string) : bool :=
  match s with
  | EmptyString => false
  | String a t => Ascii.eqb a c || includes c t
  end.

Definition lower_ascii (a : ascii) : ascii :=
  let n := nat_of_ascii a in
  if (65 <=? n)%nat && (n <=? 90)%nat then ascii_of_nat (n + 32) else a.

(** [s.toLowerCase()]; method names are ASCII. *)
Fixpoint toLowerCase (s : string) : string :=
  match s with
  | EmptyString => EmptyString
  | String a t => String (lower_ascii a) (toLowerCase t)
  end.

(** [v.split('?')]: only a string has the method. *)
Definition js_split (v : jsval) (c : ascii) : result (list string) :=
  match v with
  | VStr s => Ok (split_on c s)
  | _ => Throw (TypeError "module.meta.path.split")
  end.

(** [v.toLowerCase()]. *)
Definition js_toLowerCase (v : jsval) : result string :=
  match v with
  | VStr s => Ok (toLowerCase s)
  | _ => Throw (TypeError "(module.meta.method || 'get').toLowerCase")
  end.

(** [parts[i]] on an array of strings. *)
Definition arr_get (parts : list string) (i : nat) : jsval :=
  match nth_error parts i with
  | Some s => VStr s
  | None => VUndefined
  end.

(** ['lit' + v]. *)
Definition js_concat (s : string) (v : jsval) : string := s ++ to_string v.

End Js.
Import Js.

Notation "x <- e ;; k" := (rbind e (fun x => k))
  (at level 61, e at next level, right associativity).

(* ================================================================== *)
(** * Node's [path] module, on single path components *)
(* ================================================================== *)

Module NodePath.

(** [path.join(dir, file)] for a directory path and one entry name read
    from it. *)
Definition join (dir file : string) : string := dir ++ "/" ++ file.

(** Position of the last ['.'] of a name. *)
Fixpoint last_dot (s : string) (i : nat) (acc : option nat) : option nat :=
  match s with
  | EmptyString => acc
  | String a t => last_dot t (S i) (if Ascii.eqb a "."%char then Some i else acc)
  end.

(** [path.extname(file)] for an entry name (no separator inside): the
    text from the last dot on, and nothing when the name has no dot, starts
    with its only dot, or is [".."]. *)
Definition extname (file : string) : string :=
  match last_dot file 0 None with
  | None => ""
  | Some 0 => ""
  | Some i => if file =? ".." then "" else substring i (String.length file - i) file
  end.

End NodePath.

(* ================================================================== *)
(** * The host *)
(* ================================================================== *)

(** What [require(filePath)] does for a file: it throws an [Error] (a
    parse error, an error in the unit's top-level code), it throws some
    other value (a [throw null] in the unit's top-level code), or it yields
    the unit's exports. *)
Inductive load_result : Type :=
| LoadThrows (message : string)
| LoadThrowsValue (value : jsval)
| LoadExports (exports : jsval).

(** What calling a member of [app] other than a registration method does
    with a path and a handler: there is no such function, the call returns
    (as [app.set] or [app.enable] do) or it throws. *)
Inductive member_call : Type :=
| NotCallable
| Returned
| Raised (error : js_error).

(** The plugin tree on disk, as [readdirSync] and [statSync] show it:
    every entry is a directory with its entries in listing order, or a
    file. *)
Inductive fs_entry : Type :=
| FsFile (file : string) (load : load_result)
| FsDir (file : string) (entries : list fs_entry).

(** One call [app[method](routePath, wrapper)]; the wrapper invokes the
    [onStart] of the module it closes over. *)
Record Route : Type := mkRoute {
  r_method : string;
  r_path : string;
  r_module : jsval
}.

(** An element of [apiModules]. *)
Record ApiModule : Type := mkApiModule {
  am_name : jsval;
  am_description : jsval;
  am_category : jsval;
  am_path : string;
  am_author : jsval;
  am_method : jsval
}.

(** The two diagnostics of the scan: [console.warn] of a skipped unit and
    [console.error] of a unit that threw, each with the unit's path. *)
Inductive log_line : Type :=
| WarnSkipped (filePath : string)
| ErrorLoading (filePath : string) (error : js_error).

(** The mutable globals of the startup phase. *)
Record state : Type := mkState {
  routes : list Route;
  apiModules : list ApiModule;
  totalRoutes : nat;
  console : list log_line
}.

Definition init : state := mkState [] [] 0 [].

(** ** Statements that mutate the globals and may throw *)

Definition M (A : Type) : Type := state -> result A * state.

Definition ret {A} (a : A) : M A := fun st => (Ok a, st).

Definition bind {A B} (m : M A) (k : A -> M B) : M B :=
  fun st => match m st with
            | (Ok a, st') => k a st'
            | (Throw e, st') => (Throw e, st')
            end.

Definition lift {A} (r : result A) : M A := fun st => (r, st).

Definition modify (f : state -> state) : M unit := fun st => (Ok tt, f st).

(** [try { body } catch (error) { handler(error) }]. *)
Definition try_catch (body : M unit) (handler : js_error -> M unit) : M unit :=
  fun st => match body st with
            | (Ok tt, st') => (Ok tt, st')
            | (Throw e, st') => handler e st'
            end.

(** [list.forEach(f)]: the callback runs on each element in turn, and a
    throw of the callback ends the loop and leaves it. *)
Fixpoint forEach {A} (f : A -> M unit) (l : list A) : M unit :=
  fun st => match l with
            | [] => (Ok tt, st)
            | x :: t => match f x st with
                        | (Ok tt, st') => forEach f t st'
                        | (Throw e, st') => (Throw e, st')
                        end
            end.

(** [error.message] of a caught value: the message of an error object, the
    [message] property of any other value, and a [TypeError] of its own
    when the value is [null] or [undefined]. *)
Definition error_message (error : js_error) : result jsval :=
  match error with
  | Thrown message => Ok (VStr message)
  | TypeError expr => Ok (VStr expr)
  | ThrownValue value => get_prop value "message"
  end.

Declare Scope stmt_scope.
Delimit Scope stmt_scope with stmt.
Notation "'let!' x := e 'in' k" := (bind e (fun x => k))
  (at level 10, x name, e at level 100, k at level 200) : stmt_scope.
Notation "e ;; k" := (bind e (fun _ => k))
  (at level 61, right associativity) : stmt_scope.

Definition console_warn (l : log_line) : M unit :=
  modify (fun st => mkState (routes st) (apiModules st) (totalRoutes st)
                            (console st ++ [l])).

Definition console_error (l : log_line) : M unit := console_warn l.

Definition apiModules_push (m : ApiModule) : M unit :=
  modify (fun st => mkState (routes st) (apiModules st ++ [m]) (totalRoutes st)
                            (console st)).

Definition totalRoutes_incr : M unit :=
  modify (fun st => mkState (routes st) (apiModules st) (S (totalRoutes st))
                            (console st)).

Definition question : ascii := "?"%char.

(* ================================================================== *)
(** * A small plugin tree *)
(* ================================================================== *)

Module Example.

(** Registration methods of a router. *)
Definition verbs : list string :=
  ["get"; "post"; "put"; "delete"; "patch"; "head"; "options"].

Definition settings : jsval :=
  VObj [("apiSettings", VObj [("creator", VStr "Rynn")])].

Definition unit_of (meta : list (string * jsval)) : jsval :=
  VObj [("meta", VObj meta); ("onStart", VFun "async ({ req, res }) => {}")].

(** Two units, [GET /ping] and [POST /echo]. *)
Definition ping : jsval :=
  unit_of [("name", VStr "Ping"); ("path", VStr "/ping");
           ("method", VStr "get"); ("category", VStr "util")].

Definition echo : jsval :=
  unit_of [("name", VStr "Echo"); ("path", VStr "/echo");
           ("method", VStr "post"); ("category", VStr "util")].

(** A unit whose path carries a query text and whose method is in upper
    case. *)
Definition search : jsval :=
  unit_of [("name", VStr "Search"); ("path", VStr "/search?q=");
           ("method", VStr "GET"); ("category", VStr "tools")].

(** A unit without an entry point. *)
Definition no_handler : jsval :=
  VObj [("meta", VObj [("name", VStr "Draft"); ("path", VStr "/draft")])].

(** Two units whose category is the name of an inherited member. *)
Definition ctor_a : jsval :=
  unit_of [("name", VStr "A"); ("path", VStr "/a");
           ("category", VStr "constructor")].

Definition ctor_b : jsval :=
  unit_of [("name", VStr "B"); ("path", VStr "/b");
           ("category", VStr "constructor")].

Definition root : string := "/app/api".

Definition tree : list fs_entry :=
  [FsFile "ping.js" (LoadExports ping);
   FsDir "tools"
     [FsFile "echo.js" (LoadExports echo);
      FsFile "draft.js" (LoadExports no_handler);
      FsFile "notes.txt" (LoadExports VUndefined);
      FsFile "broken.js" (LoadThrows "Unexpected token")];
   FsFile "null.js" (LoadExports VNull)].

(** The scenario of the specification. *)
Definition scenario : list fs_entry :=
  [FsFile "ping.js" (LoadExports ping); FsFile "echo.js" (LoadExports echo)].

Definition twice : list fs_entry :=
  [FsFile "ping.js" (LoadExports ping);
   FsFile "ping2.js" (LoadExports ping)].

Definition with_query : list fs_entry :=
  [FsFile "search.js" (LoadExports search)].

Definition with_constructor : list fs_entry :=
  [FsFile "a.js" (LoadExports ctor_a); FsFile "b.js" (LoadExports ctor_b)].

(** A unit bound at the path of the catalog endpoint, and one whose
    method is no registration method of the router. *)
Definition info : jsval :=
  unit_of [("name", VStr "Info"); ("path", VStr "/info")].


(** An example router: its registration methods reject a path with an
    opening parenthesis that is never closed, and of its other members
    [set] and [enable] take such a call and return. *)
Definition path_error (routePath : string) : option string :=
  if includes "("%char routePath && negb (includes ")"%char routePath)
  then Some "Invalid regular expression: Unterminated group"
  else None.

Definition member (method routePath : string) : member_call :=
  if (method =? "set") || (method =? "enable") then Returned else NotCallable.


Definition setter : jsval :=
  unit_of [("name", VStr "Setter"); ("path", VStr "/x");
           ("method", VStr "set")].

Definition with_throw_null : list fs_entry :=
  [FsFile "first.js" (LoadThrowsValue VNull);
   FsFile "ping.js" (LoadExports ping)].

Definition with_info : list fs_entry :=
  [FsFile "info.js" (LoadExports info)].

(** Catalog entries of three units, in the categories [b], [a], [b]. *)
Definition entry (name category path : string) : ApiModule :=
  mkApiModule (VStr name) VUndefined (VStr category) path VUndefined
              (VStr "get").

Definition three_entries : list ApiModule :=
  [entry "One" "b" "/api/one"; entry "Two" "a" "/api/two";
   entry "Three" "b" "/api/three"].

(** The catalog entry of a unit without a category. *)
Definition unset_entry : ApiModule :=
  mkApiModule (VStr "Plain") VUndefined VUndefined "/api/plain" VUndefined
              (VStr "get").

End Example.

Section Host.

(** The registration methods of the host router, by name: the members
    of [app] that register a handler at a path ([app.get], [app.post],
    ...).  The router itself is an external collaborator. *)
Variable verbs : list string.

(** The message of the error a registration method throws for a path the
    router cannot compile, if it cannot. *)
Variable path_error : string -> option string.

(** What the other members of [app] do when called with a path and a
    handler, by name and path. *)
Variable member : string -> string -> member_call.

(** The parsed [settings.json]. *)
Variable settings : jsval.

(** [app[method](routePath, wrapper)]: a registration method records the
    route, unless it rejects the path; another member of [app] is called
    and returns or throws without a route being recorded; under any other
    name there is nothing to call. *)
Definition app_register (method routePath : string) (module : jsval) : M unit :=
  if existsb (String.eqb method) verbs
  then match path_error routePath with
       | None =>
           modify (fun st =>
                     mkState (routes st ++ [mkRoute method routePath module])
                             (apiModules st) (totalRoutes st) (console st))
       | Some message => lift (Throw (Thrown message))
       end
  else match member method routePath with
       | Returned => ret tt
       | Raised error => lift (Throw error)
       | NotCallable => lift (Throw (TypeError ("app." ++ method)))
       end.

(** [require(filePath)]. *)
Definition require (load : load_result) : result jsval :=
  match load with
  | LoadThrows message => Throw (Thrown message)
  | LoadThrowsValue value => Throw (ThrownValue value)
  | LoadExports exports => Ok exports
  end.

(** [!module.meta || !module.onStart || typeof module.onStart !== 'function'] *)
Definition invalid_format (module : jsval) : result bool :=
  meta <- get_prop module "meta" ;;
  if negb (truthy meta) then Ok true
  else
    onStart <- get_prop module "onStart" ;;
    if negb (truthy onStart) then Ok true
    else Ok (negb (typeof onStart =? "function")).

(** The body of the [try] block of [loadModules] for one [.js] file. *)
Definition try_body (filePath : string) (load : load_result) : M unit :=
  (let! module := lift (require load) in
   let! invalid := lift (invalid_format module) in
   if (invalid : bool) then console_warn (WarnSkipped filePath)
   else
     let! meta := lift (get_prop module "meta") in
     let! path := lift (get_prop meta "path") in
     let! parts := lift (js_split path question) in
     let basePath := arr_get parts 0 in
     let routePath := js_concat "/api" basePath in
     let! meta_method := lift (get_prop meta "method") in
     let! method := lift (js_toLowerCase (js_or meta_method (VStr "get"))) in
     app_register method routePath module ;;
     let! name := lift (get_prop meta "name") in
     let! description := lift (get_prop meta "description") in
     let! category := lift (get_prop meta "category") in
     let! path' := lift (get_prop meta "path") in
     let! suffix :=
       lift (match path' with
             | VStr p =>
                 if includes question p
                 then parts' <- js_split path' question ;;
                      Ok (js_concat "?" (arr_get parts' 1))
                 else Ok ""
             | _ => Throw (TypeError "module.meta.path.includes")
             end) in
     let! author := lift (get_prop meta "author") in
     let! meta_method' := lift (get_prop meta "method") in
     apiModules_push
       (mkApiModule name description category (routePath ++ suffix) author
                    (js_or meta_method' (VStr "get"))) ;;
     totalRoutes_incr)%stmt.

(** The [catch] block: it reads [error.message] for the line it logs. *)
Definition catch_block (filePath : string) (error : js_error) : M unit :=
  (let! message := lift (error_message error) in
   console_error (ErrorLoading filePath error))%stmt.

(** One file of the listing that is not a directory. *)
Definition load_file (filePath file : string) (load : load_result) : M unit :=
  if NodePath.extname file =? ".js"
  then try_catch (try_body filePath load) (catch_block filePath)
  else ret tt.

(** The callback of [readdirSync(dir).forEach] on one entry; a directory
    is scanned in turn, entry by entry. *)
Fixpoint load_entry_stmt (dir : string) (e : fs_entry) {struct e} : M unit :=
  match e with
  | FsDir file entries =>
      let filePath := NodePath.join dir file in
      forEach (load_entry_stmt filePath) entries
  | FsFile file load =>
      let filePath := NodePath.join dir file in
      load_file filePath file load
  end.

(** [loadModules(dir)]: it returns, or leaves with what a [catch] block
    threw. *)
Definition loadModules_stmt (dir : string) (entries : list fs_entry) : M unit :=
  forEach (load_entry_stmt dir) entries.

(** The globals as the callback leaves them on one entry, and as
    [loadModules(dir)] leaves them, whether it returns or throws. *)
Definition load_entry (dir : string) (e : fs_entry) (st : state) : state :=
  snd (load_entry_stmt dir e st).

Definition loadModules (dir : string) (entries : list fs_entry) (st : state)
  : state :=
  snd (loadModules_stmt dir entries st).

(** ** The response envelope *)

(** [settings.apiSettings?.creator || "Created Using Rynn UI"] *)
Definition configured_creator : result jsval :=
  apiSettings <- get_prop settings "apiSettings" ;;
  creator <- match apiSettings with
             | VUndefined | VNull => Ok VUndefined
             | _ => get_prop apiSettings "creator"
             end ;;
  Ok (js_or creator (VStr "Created Using Rynn UI")).

(** The patched [res.json(data)]: the value handed to the original
    [res.json], which serialises it as it is. *)
Definition res_json (data : jsval) : result jsval :=
  if truthy data && (typeof data =? "object") then
    status <- get_prop data "status" ;;
    creator <- configured_creator ;;
    Ok (VObj (spread_into [("status", js_or status (VNum 200));
                           ("creator", creator)] data))
  else Ok data.

(** ** The catalog endpoint *)

Record CatalogItem : Type := mkItem {
  i_name : jsval;
  i_desc : jsval;
  i_path : string;
  i_author : jsval;
  i_method : jsval
}.

Record CatalogCategory : Type := mkCategory {
  c_name : jsval;
  c_items : list CatalogItem
}.

(** The members every object literal inherits from [Object.prototype]. *)
Definition object_prototype_keys : list string :=
  ["constructor"; "__defineGetter__"; "__defineSetter__"; "hasOwnProperty";
   "__lookupGetter__"; "__lookupSetter__"; "isPrototypeOf";
   "propertyIsEnumerable"; "toString"; "valueOf"; "__proto__";
   "toLocaleString"].

Definition inherited (key : string) : bool :=
  existsb (String.eqb key) object_prototype_keys.

(** What [categories[key]] finds on the object literal [categories]: an
    own category, an inherited member (a function or the prototype, truthy
    and without [items]), or nothing. *)
Inductive found : Type :=
| Own (c : CatalogCategory)
| Inherited
| Missing.

Definition categories_get (categories : props CatalogCategory) (key : string)
  : found :=
  match obj_get key categories with
  | Some c => Own c
  | None => if inherited key then Inherited else Missing
  end.

Definition item_of (module : ApiModule) : CatalogItem :=
  mkItem (am_name module) (am_description module) (am_path module)
         (am_author module) (am_method module).

(** The body of [apiModules.forEach(module => ...)]. *)
Definition group_step (categories : props CatalogCategory) (module : ApiModule)
  : result (props CatalogCategory) :=
  let key := to_string (am_category module) in
  let categories :=
    match categories_get categories key with
    | Missing => obj_set key (mkCategory (am_category module) []) categories
    | Own _ | Inherited => categories
    end in
  match categories_get categories key with
  | Own c =>
      Ok (obj_set key (mkCategory (c_name c) (c_items c ++ [item_of module]))
                  categories)
  | Inherited | Missing =>
      Throw (TypeError ("categories[" ++ key ++ "].items.push"))
  end.

Fixpoint group_all (categories : props CatalogCategory) (l : list ApiModule)
  : result (props CatalogCategory) :=
  match l with
  | [] => Ok categories
  | module :: rest =>
      categories' <- group_step categories module ;;
      group_all categories' rest
  end.

(** [Object.values(categories)] of the handler, for the recorded modules. *)
Definition buildCatalog (entries : list ApiModule)
  : result (list CatalogCategory) :=
  categories <- group_all [] entries ;;
  Ok (map snd categories).

Definition item_json (i : CatalogItem) : jsval :=
  VObj [("name", i_name i); ("desc", i_desc i); ("path", VStr (i_path i));
        ("author", i_author i); ("method", i_method i)].

Definition category_json (c : CatalogCategory) : jsval :=
  VObj [("name", c_name c); ("items", VArr (map item_json (c_items c)))].

(** The handler of [GET /api/info], as the value it sends. *)
Definition api_info (st : state) : result jsval :=
  categories <- buildCatalog (apiModules st) ;;
  res_json (VObj [("categories", VArr (map category_json categories))]).

(** The paths a catalog shows. *)
Definition catalog_paths (cats : list CatalogCategory) : list string :=
  flat_map (fun c => map i_path (c_items c)) cats.

(** ** Notions used to state the properties *)

(** A member a unit does not provide: the test [!v] of the validation
    holds of it ([undefined], [null] or another falsy value). *)
Definition absent (v : jsval) : Prop := truthy v = false.

Definition invocable (v : jsval) : Prop := typeof v = "function".

(** The candidate units of a listing, in traversal order: every file named
    [*.js], with the path it is loaded from. *)
Fixpoint candidates_entry (dir : string) (e : fs_entry)
  : list (string * load_result) :=
  match e with
  | FsDir file entries =>
      flat_map (candidates_entry (NodePath.join dir file)) entries
  | FsFile file load =>
      if NodePath.extname file =? ".js"
      then [(NodePath.join dir file, load)] else []
  end.

Definition candidates (dir : string) (entries : list fs_entry)
  : list (string * load_result) :=
  flat_map (candidates_entry dir) entries.

(** The [try]/[catch] statement on one candidate, and the globals as it
    leaves them. *)
Definition load_candidate_stmt (c : string * load_result) : M unit :=
  try_catch (try_body (fst c) (snd c)) (catch_block (fst c)).

Definition load_candidate (c : string * load_result) (st : state) : state :=
  snd (load_candidate_stmt c st).

(** The candidates loaded one after the other, up to the first whose
    [catch] block throws. *)
Definition scan_stmt (cs : list (string * load_result)) : M unit :=
  forEach load_candidate_stmt cs.

Definition scan (cs : list (string * load_result)) (st : state) : state :=
  snd (scan_stmt cs st).

(** What one candidate comes to, whatever was loaded before it: it is
    bound (a route and its catalog entry), skipped as invalid, caught and
    logged, listed (a catalog entry and a count without a route, when its
    method names a member of [app] that is no registration method), or it
    makes the [catch] block throw. *)
Inductive outcome : Type :=
| Bound (r : Route) (m : ApiModule)
| Invalid
| Failed (error : js_error)
| Listed (m : ApiModule)
| Aborted (error : js_error).

(** The call a unit with a valid format comes to, [app[method](routePath,
    ...)], and the catalog entry recorded when the call returns. *)
Definition describe (module : jsval) : result (string * string * ApiModule) :=
  meta <- get_prop module "meta" ;;
  path <- get_prop meta "path" ;;
  parts <- js_split path question ;;
  let routePath := js_concat "/api" (arr_get parts 0) in
  meta_method <- get_prop meta "method" ;;
  method <- js_toLowerCase (js_or meta_method (VStr "get")) ;;
  name <- get_prop meta "name" ;;
  description <- get_prop meta "description" ;;
  category <- get_prop meta "category" ;;
  author <- get_prop meta "author" ;;
  let suffix :=
    match path with
    | VStr p => if includes question p
                then js_concat "?" (arr_get parts 1) else ""
    | _ => ""
    end in
  Ok (method, routePath,
      mkApiModule name description category (routePath ++ suffix) author
                  (js_or meta_method (VStr "get"))).

(** What the [catch] block makes of a caught value. *)
Definition caught (error : js_error) : outcome :=
  match error_message error with
  | Ok _ => Failed error
  | Throw error' => Aborted error'
  end.

(** What the call makes of the unit. *)
Definition register (module : jsval) (d : string * string * ApiModule)
  : outcome :=
  let '(method, routePath, m) := d in
  if existsb (String.eqb method) verbs
  then match path_error routePath with
       | None => Bound (mkRoute method routePath module) m
       | Some message => caught (Thrown message)
       end
  else match member method routePath with
       | Returned => Listed m
       | Raised error => caught error
       | NotCallable => caught (TypeError ("app." ++ method))
       end.

Definition classify (load : load_result) : outcome :=
  match load with
  | LoadThrows message => caught (Thrown message)
  | LoadThrowsValue value => caught (ThrownValue value)
  | LoadExports module =>
      match invalid_format module with
      | Throw e => caught e
      | Ok true => Invalid
      | Ok false =>
          match describe module with
          | Ok d => register module d
          | Throw e => caught e
          end
      end
  end.

Definition binds (c : string * load_result) : bool :=
  match classify (snd c) with Bound _ _ => true | _ => false end.

Definition aborts (c : string * load_result) : bool :=
  match classify (snd c) with Aborted _ => true | _ => false end.

(** The candidates a scan gets to: those before the first that makes the
    [catch] block throw. *)
Fixpoint reached (cs : list (string * load_result))
  : list (string * load_result) :=
  match cs with
  | [] => []
  | c :: rest => if aborts c then [] else c :: reached rest
  end.

Definition bound_routes (c : string * load_result) : list Route :=
  match classify (snd c) with Bound r _ => [r] | _ => [] end.

Definition bound_modules (c : string * load_result) : list ApiModule :=
  match classify (snd c) with
  | Bound _ m | Listed m => [m]
  | _ => []
  end.

Definition diagnostics (c : string * load_result) : list log_line :=
  match classify (snd c) with
  | Invalid => [WarnSkipped (fst c)]
  | Failed e => [ErrorLoading (fst c) e]
  | _ => []
  end.

(** The state after a candidate whose outcome is [o]. *)
Definition after (filePath : string) (o : outcome) (st : state) : state :=
  match o with
  | Bound r m =>
      mkState (routes st ++ [r]) (apiModules st ++ [m]) (S (totalRoutes st))
              (console st)
  | Invalid =>
      mkState (routes st) (apiModules st) (totalRoutes st)
              (console st ++ [WarnSkipped filePath])
  | Failed e =>
      mkState (routes st) (apiModules st) (totalRoutes st)
              (console st ++ [ErrorLoading filePath e])
  | Listed m =>
      mkState (routes st) (apiModules st ++ [m]) (S (totalRoutes st))
              (console st)
  | Aborted _ => st
  end.

(** How the statement on a candidate of outcome [o] ends. *)
Definition completion (o : outcome) : result unit :=
  match o with
  | Aborted e => Throw e
  | _ => Ok tt
  end.

(** The unit a diagnostic names. *)
Definition line_path (l : log_line) : string :=
  match l with
  | WarnSkipped filePath => filePath
  | ErrorLoading filePath _ => filePath
  end.

(** The key a recorded module is grouped under. *)
Definition category_key (m : ApiModule) : string := to_string (am_category m).

Definition in_category (k : string) (m : ApiModule) : bool :=
  category_key m =? k.

(** The category expected under key [k] for the recorded modules [l]: the
    modules of that key in recorded order, named after the first of them. *)
Definition grouped (l : list ApiModule) (k : string) : option CatalogCategory :=
  match filter (in_category k) l with
  | [] => None
  | m :: rest => Some (mkCategory (am_category m) (map item_of (m :: rest)))
  end.

(** The resolved path of a catalog path: what precedes its first ['?']. *)
Definition resolved_part (p : string) : string :=
  hd "" (split_on question p).

(** A route and the catalog entry recorded with it: the entry shows the
    route's path, followed by ['?'] and a query text when the descriptor
    has one. *)
Definition shows (r : Route) (m : ApiModule) : Prop :=
  resolved_part (am_path m) = r_path r /\
  (am_path m = r_path r \/
   exists q, am_path m = (r_path r ++ String question q)%string).

(** ** The properties as the specification words them

    Three sentences of the specification that the code is compared with
    below. *)

(** "A candidate unit is invalid if metadata is absent, OR the entry
    point is absent, OR the entry point is not invocable", for every unit,
    with [unit_member] for what a unit provides under a name (nothing, when
    its exports are [null] or [undefined]). *)
Definition unit_member (module : jsval) (k : string) : jsval :=
  match get_prop module k with
  | Ok v => v
  | Throw _ => VUndefined
  end.

Definition invalid_iff_warned : Prop :=
  forall filePath module st,
    let st' := load_candidate (filePath, LoadExports module) st in
    (absent (unit_member module "meta") \/
     absent (unit_member module "onStart") \/
     ~ invocable (unit_member module "onStart")) <->
    console st' = console st ++ [WarnSkipped filePath].




(** The path a route is bound at and the path its catalog entry shows, for
    a descriptor path [p]: without ['?'], both are [/api] followed by [p];
    otherwise the route is at [/api] followed by what precedes the first
    ['?'], and the entry shows that, the ['?'] and the text up to the next
    ['?'] (or to the end). *)
Definition path_shown (p route_path catalog_path : string) : Prop :=
  (includes question p = false /\
   route_path = ("/api" ++ p)%string /\ catalog_path = route_path) \/
  (exists a b tail,
     p = (a ++ String question (b ++ tail))%string /\
     includes question a = false /\ includes question b = false /\
     (tail = "" \/ exists c, tail = String question c) /\
     route_path = ("/api" ++ a)%string /\
     catalog_path = (route_path ++ String question b)%string).

Definition records (r : Route) (m : ApiModule) : Prop :=
  exists meta p,
    get_prop (r_module r) "meta" = Ok meta /\
    get_prop meta "path" = Ok (VStr p) /\
    path_shown p (r_path r) (am_path m).

(** "If [(resolvedMethod, resolvedPath)] is already registered, the binder
    must report it (log + reject this module)". *)
Definition conflict_rejected : Prop :=
  forall filePath load r m r0 st,
    classify load = Bound r m ->
    In r0 (routes st) ->
    r_method r0 = r_method r -> r_path r0 = r_path r ->
    let st' := load_candidate (filePath, load) st in
    routes st' = routes st /\ apiModules st' = apiModules st /\
    exists l, console st' = console st ++ [l].

(** "The set of paths appearing in [GET /api/info]'s categories equals
    exactly the set of successfully bound routes' resolved paths". *)
Definition catalog_shows_resolved_paths : Prop :=
  forall dir entries categories,
    let st := loadModules dir entries init in
    buildCatalog (apiModules st) = Ok categories ->
    forall p, In p (catalog_paths categories) <-> In p (map r_path (routes st)).

(** "Unset category uses the literal/default category label chosen by
    policy". *)
Definition unset_category_labelled : Prop :=
  exists label : string,
    forall entries m,
      In m entries -> am_category m = VUndefined ->
      exists categories c,
        buildCatalog entries = Ok categories /\ In c categories /\
        c_name c = VStr label /\ In (item_of m) (c_items c).

(** ** Further notions *)

(** A catalog entry describes a route: its fields are those of the
    descriptor of the route's module, its method is the descriptor's as
    written (["get"] when there is none), and the route's method is that
    method in lower case. *)
Definition describes (r : Route) (m : ApiModule) : Prop :=
  exists meta meta_method s,
    get_prop (r_module r) "meta" = Ok meta /\
    get_prop meta "name" = Ok (am_name m) /\
    get_prop meta "description" = Ok (am_description m) /\
    get_prop meta "category" = Ok (am_category m) /\
    get_prop meta "author" = Ok (am_author m) /\
    get_prop meta "method" = Ok meta_method /\
    am_method m = js_or meta_method (VStr "get") /\
    am_method m = VStr s /\ s <> "" /\ r_method r = toLowerCase s.

(** The call a descriptor comes to: [app[method](routePath, ...)], for a
    descriptor with a string [path] and a [method] that is absent or a
    string. *)
Definition call_of (meta : jsval) (method routePath : string) : Prop :=
  exists p meta_method,
    get_prop meta "path" = Ok (VStr p) /\
    get_prop meta "method" = Ok meta_method /\
    js_toLowerCase (js_or meta_method (VStr "get")) = Ok method /\
    routePath = ("/api" ++ hd "" (split_on question p))%string.

(** A catalog entry whose method, in lower case, is a registration method
    of the router: the entry of a bound route. *)
Definition registered (m : ApiModule) : bool :=
  existsb (String.eqb (toLowerCase (to_string (am_method m)))) verbs.

(** A candidate that is skipped as invalid or caught and logged, and one
    that is listed without a route. *)
Definition diagnosed (c : string * load_result) : bool :=
  match classify (snd c) with Invalid | Failed _ => true | _ => false end.

Definition lists (c : string * load_result) : bool :=
  match classify (snd c) with Listed _ => true | _ => false end.

(** The category keys of the recorded modules, each at its first use. *)
Definition first_use (keys : list string) (m : ApiModule) : list string :=
  if existsb (String.eqb (category_key m)) keys then keys
  else keys ++ [category_key m].

Definition keys_in_use_order (l : list ApiModule) : list string :=
  fold_left first_use l [].

(** The items of all categories of the [categories] object. *)
Definition all_items (categories : props CatalogCategory) : list CatalogItem :=
  flat_map (fun kc => c_items (snd kc)) categories.

(** The pages served by name: [webPages] and the path each is served at,
    [`/${page.split('.')[0]}`]. *)
Definition webPages : list string :=
  ["portal.html"; "test-post.html"; "docs.html"].

Definition page_route (page : string) : string :=
  js_concat "/" (arr_get (split_on "."%char page) 0).

(** The paths the host registers itself after the scan, in order:
    [/api/info], [/settings.json] and the pages. *)
Definition builtin_paths : list string :=
  "/api/info" :: "/settings.json" :: map page_route webPages.


(** The value a reply has under key [k]: the payload's own, or else the
    default [d]. *)
Definition own_or (P : props jsval) (k : string) (d : jsval) : jsval :=
  match obj_get k P with Some v => v | None => d end.

(** A payload property other than [status] and [creator]. *)
Definition other_key (kv : string * jsval) : bool :=
  negb (fst kv =? "status") && negb (fst kv =? "creator").

(* ================================================================== *)
(** * Property lists *)
(* ================================================================== *)

Section PropsFacts.
Context {A : Type}.
Implicit Types (o : props A) (k : string) (v : A).

Lemma obj_get_replace_same k v o :
  obj_has k o = true -> obj_get k (obj_replace k v o) = Some v.
Proof.
  unfold obj_has.
  induction o as [|[k' v'] t IH]; simpl; [discriminate|].
  destruct (k =? k') eqn:E; simpl; rewrite E; auto.
Qed.

Lemma obj_get_replace_other k k' v o :
  k' <> k -> obj_get k' (obj_replace k v o) = obj_get k' o.
Proof.
  intros Hne.
  induction o as [|[k0 v0] t IH]; simpl; [reflexivity|].
  destruct (k =? k0) eqn:E; simpl.
  - apply String.eqb_eq in E; subst k0.
    destruct (k' =? k) eqn:E'; [apply String.eqb_eq in E'; contradiction|reflexivity].
  - destruct (k' =? k0); auto.
Qed.

Lemma obj_get_insert_index_same n k v o :
  obj_has k o = false -> obj_get k (obj_insert_index n k v o) = Some v.
Proof.
  unfold obj_has.
  induction o as [|[k' v'] t IH]; simpl; intros H.
  - now rewrite String.eqb_refl.
  - destruct (k =? k') eqn:E; [discriminate|].
    destruct (array_index k') as [n'|]; [destruct (n' <? n)%N|]; simpl;
      rewrite ?E, ?String.eqb_refl; auto.
Qed.

Lemma obj_get_insert_index_other n k k' v o :
  k' <> k -> obj_get k' (obj_insert_index n k v o) = obj_get k' o.
Proof.
  intros Hne. apply String.eqb_neq in Hne.
  induction o as [|[k0 v0] t IH]; simpl.
  - now rewrite Hne.
  - destruct (array_index k0) as [n'|]; [destruct (n' <? n)%N|]; simpl;
      rewrite ?Hne; try reflexivity.
    destruct (k' =? k0); auto.
Qed.

Lemma obj_get_app k o o' :
  obj_get k (o ++ o') =
  match obj_get k o with Some x => Some x | None => obj_get k o' end.
Proof.
  induction o as [|[k0 v0] t IH]; simpl; [reflexivity|].
  destruct (k =? k0); auto.
Qed.

(** Reading back what was just written. *)
Lemma obj_get_set_same k v o : obj_get k (obj_set k v o) = Some v.
Proof.
  unfold obj_set.
  destruct (obj_has k o) eqn:H.
  - now apply obj_get_replace_same.
  - destruct (array_index k).
    + now apply obj_get_insert_index_same.
    + rewrite obj_get_app. unfold obj_has in H.
      destruct (obj_get k o); [discriminate|]. simpl. now rewrite String.eqb_refl.
Qed.

(** Writing one key leaves the others as they were. *)
Lemma obj_get_set_other k k' v o :
  k' <> k -> obj_get k' (obj_set k v o) = obj_get k' o.
Proof.
  intros Hne. unfold obj_set.
  destruct (obj_has k o).
  - now apply obj_get_replace_other.
  - destruct (array_index k).
    + now apply obj_get_insert_index_other.
    + rewrite obj_get_app. destruct (obj_get k' o); [reflexivity|].
      simpl. apply String.eqb_neq in Hne. now rewrite Hne.
Qed.

Lemma obj_get_In k v o : obj_get k o = Some v -> In (k, v) o.
Proof.
  induction o as [|[k0 v0] t IH]; simpl; [discriminate|].
  destruct (k =? k0) eqn:E.
  - apply String.eqb_eq in E. intros [= ->]. left. now subst.
  - auto.
Qed.

Lemma obj_get_None_keys k o : obj_get k o = None -> ~ In k (map fst o).
Proof.
  induction o as [|[k0 v0] t IH]; simpl; [intros _ []|].
  destruct (k =? k0) eqn:E; [discriminate|].
  apply String.eqb_neq in E. intros H [Heq|Hin]; [congruence|now apply IH].
Qed.

Lemma In_obj_get k v o : NoDup (map fst o) -> In (k, v) o -> obj_get k o = Some v.
Proof.
  induction o as [|[k0 v0] t IH]; simpl; [intros _ []|].
  intros Hnd [Heq|Hin].
  - injection Heq as -> ->. now rewrite String.eqb_refl.
  - inversion Hnd as [|? ? Hnotin Hnd']; subst.
    destruct (k =? k0) eqn:E; [|auto].
    apply String.eqb_eq in E; subst k0.
    exfalso. apply Hnotin. now apply (in_map fst) in Hin.
Qed.

Lemma keys_replace k v o : map fst (obj_replace k v o) = map fst o.
Proof.
  induction o as [|[k0 v0] t IH]; simpl; [reflexivity|].
  destruct (k =? k0); simpl; congruence.
Qed.

Lemma keys_insert_index n k v o :
  Permutation (map fst (obj_insert_index n k v o)) (k :: map fst o).
Proof.
  induction o as [|[k0 v0] t IH]; simpl; [reflexivity|].
  destruct (array_index k0) as [n'|]; [destruct (n' <? n)%N|]; simpl;
    try reflexivity.
  rewrite IH. apply perm_swap.
Qed.

(** Writing a key never duplicates one. *)
Lemma obj_set_NoDup k v o : NoDup (map fst o) -> NoDup (map fst (obj_set k v o)).
Proof.
  intros Hnd. unfold obj_set.
  destruct (obj_has k o) eqn:H.
  - now rewrite keys_replace.
  - assert (Hk : ~ In k (map fst o)).
    { apply obj_get_None_keys. unfold obj_has in H.
      now destruct (obj_get k o). }
    destruct (array_index k).
    + eapply Permutation_NoDup; [symmetry; apply keys_insert_index|].
      now constructor.
    + rewrite map_app. simpl.
      eapply Permutation_NoDup; [apply Permutation_cons_append|].
      now constructor.
Qed.

End PropsFacts.

(** A spread reads as the source wherever the source has the key, and as
    the target elsewhere. *)
Lemma obj_get_spread k (src target : props jsval) :
  NoDup (map fst src) ->
  obj_get k (fold_left (fun o kv => obj_set (fst kv) (snd kv) o) src target) =
  match obj_get k src with Some x => Some x | None => obj_get k target end.
Proof.
  revert target.
  induction src as [|[k0 v0] t IH]; simpl; intros target Hnd; [reflexivity|].
  inversion Hnd as [|? ? Hnotin Hnd']; subst.
  rewrite IH by assumption.
  destruct (k =? k0) eqn:E.
  - apply String.eqb_eq in E; subst k0.
    destruct (obj_get k t) eqn:G.
    + exfalso. apply Hnotin. apply obj_get_In in G. now apply (in_map fst) in G.
    + apply obj_get_set_same.
  - apply String.eqb_neq in E.
    destruct (obj_get k t); [reflexivity|].
    now apply obj_get_set_other.
Qed.

Lemma spread_NoDup (src target : props jsval) :
  NoDup (map fst target) ->
  NoDup (map fst (fold_left (fun o kv => obj_set (fst kv) (snd kv) o) src target)).
Proof.
  revert target.
  induction src as [|[k0 v0] t IH]; simpl; intros target Hnd; [assumption|].
  apply IH. now apply obj_set_NoDup.
Qed.

(* ================================================================== *)
(** * The response envelope *)
(* ================================================================== *)

(** A payload that fails the test of the middleware is handed on as it
    is. *)
Lemma res_json_passthrough (data : jsval) :
  truthy data && (typeof data =? "object") = false -> res_json data = Ok data.
Proof. unfold res_json. now intros ->. Qed.

(** Neither an array nor an object fails that test. *)
Lemma res_json_wraps (data : jsval) (creator : jsval) :
  truthy data && (typeof data =? "object") = true ->
  configured_creator = Ok creator ->
  exists status,
    get_prop data "status" = Ok status /\
    res_json data =
    Ok (VObj (spread_into [("status", js_or status (VNum 200));
                           ("creator", creator)] data)).
Proof.
  intros Htest Hc. unfold res_json. rewrite Htest, Hc.
  destruct data; try discriminate; simpl; eexists; split; reflexivity.
Qed.

(** What the middleware does with a payload that is not a plain object:
    [null], [undefined], a boolean, a number, a string or a function is
    handed on unmodified; an array is not, because it passes the
    [typeof data === 'object'] test. *)
Lemma res_json_non_object :
  (forall data,
     match data with VArr _ | VObj _ => False | _ => True end ->
     res_json data = Ok data) /\
  (forall elems, res_json (VArr elems) <> Ok (VArr elems)).
Proof.
  split.
  - intros data H. apply res_json_passthrough.
    destruct data; simpl; try reflexivity; try contradiction;
      now rewrite andb_false_r.
  - intros elems. unfold res_json. simpl.
    destruct configured_creator; simpl; discriminate.
Qed.

(** C2: an object payload [P] is sent as the merge of the defaults
    [{status: 200, creator}] with [P]: the response is an object that has,
    under every key of [P], the value [P] has there, and under any other key
    what the defaults have; so a [status] of [P] is the [status] sent. *)
Theorem C2_object_payload_merged (P : props jsval) (creator : jsval) :
  NoDup (map fst P) ->
  configured_creator = Ok creator ->
  exists R,
    res_json (VObj P) = Ok (VObj R) /\
    NoDup (map fst R) /\
    (forall k,
       obj_get k R =
       match obj_get k P with
       | Some v => Some v
       | None => obj_get k [("status", VNum 200); ("creator", creator)]
       end) /\
    (forall s, obj_get "status" P = Some s -> obj_get "status" R = Some s).
Proof.
  intros Hnd Hc.
  destruct (res_json_wraps (VObj P) creator eq_refl Hc) as (status & Hs & Hr).
  eexists. split; [exact Hr|].
  assert (Hget : forall k,
    obj_get k (spread_into [("status", js_or status (VNum 200));
                            ("creator", creator)] (VObj P)) =
    match obj_get k P with
    | Some v => Some v
    | None => obj_get k [("status", VNum 200); ("creator", creator)]
    end).
  { intros k. unfold spread_into. simpl own_entries.
    rewrite obj_get_spread by assumption.
    destruct (obj_get k P) eqn:G; [reflexivity|].
    simpl. destruct (k =? "status") eqn:E; [|reflexivity].
    apply String.eqb_eq in E; subst k.
    simpl in Hs. rewrite G in Hs. injection Hs as <-. reflexivity. }
  split; [|split].
  - unfold spread_into. apply spread_NoDup. simpl.
    apply NoDup_cons; [intros [H|[]]; discriminate H|].
    apply NoDup_cons; [intros []|apply NoDup_nil].
  - exact Hget.
  - intros s Hsome. now rewrite Hget, Hsome.
Qed.

(* ================================================================== *)
(** * Discovery: one candidate *)
(* ================================================================== *)

Ltac run_stmt :=
  unfold load_candidate_stmt, try_catch, try_body, bind, lift, ret, modify,
    console_warn, console_error, apiModules_push, totalRoutes_incr,
    app_register; simpl.

(** The [catch] block logs the caught value, or throws on reading its
    message. *)
Lemma catch_block_run (filePath : string) (e : js_error) (st : state) :
  catch_block filePath e st = (completion (caught e), after filePath (caught e) st).
Proof.
  unfold catch_block, caught, bind, lift, console_error, console_warn, modify.
  destruct (error_message e); reflexivity.
Qed.

(** The [try]/[catch] statement does to the globals exactly what the
    outcome of its unit says, whatever they hold already, and ends as that
    outcome says. *)
Lemma load_candidate_run (c : string * load_result) (st : state) :
  load_candidate_stmt c st =
  (completion (classify (snd c)), after (fst c) (classify (snd c)) st).
Proof.
  destruct c as [filePath [message|value|module]];
    [reflexivity|apply catch_block_run|].
  run_stmt. unfold classify.
  destruct (invalid_format module) as [[|]|e] eqn:Hinv; simpl;
    try reflexivity; try apply catch_block_run.
  unfold describe.
  destruct (get_prop module "meta") as [meta|e]; simpl;
    [|apply catch_block_run].
  destruct meta as [| | | | |elems|ps|src]; simpl; try apply catch_block_run.
  destruct (obj_get "path" ps) as [[| | | |p| | |]|]; simpl;
    try apply catch_block_run.
  destruct (js_toLowerCase _) as [method|e]; simpl; [|apply catch_block_run].
  run_stmt. unfold register.
  destruct (existsb (String.eqb method) verbs); simpl.
  - destruct (path_error _); simpl; [apply catch_block_run|].
    destruct (includes question p); reflexivity.
  - destruct (member method _); simpl; try apply catch_block_run.
    destruct (includes question p); reflexivity.
Qed.

Lemma load_candidate_classify (c : string * load_result) (st : state) :
  load_candidate c st = after (fst c) (classify (snd c)) st.
Proof. unfold load_candidate. now rewrite load_candidate_run. Qed.

(* ================================================================== *)
(** * Discovery: the whole tree *)
(* ================================================================== *)

(** Induction on a plugin tree, with the entries of a directory. *)
Fixpoint fs_entry_tree_ind (P : fs_entry -> Prop)
    (Hfile : forall file load, P (FsFile file load))
    (Hdir : forall file entries, Forall P entries -> P (FsDir file entries))
    (e : fs_entry) {struct e} : P e :=
  match e with
  | FsFile file load => Hfile file load
  | FsDir file entries =>
      Hdir file entries
        ((fix all (l : list fs_entry) : Forall P l :=
            match l with
            | [] => Forall_nil P
            | x :: t =>
                Forall_cons x (fs_entry_tree_ind P Hfile Hdir x) (all t)
            end) entries)
  end.

(** A loop over two lists in a row is the loop over the first and, when
    that returns, the loop over the second. *)
Lemma forEach_app {A} (f : A -> M unit) (l l' : list A) (st : state) :
  forEach f (l ++ l') st =
  match forEach f l st with
  | (Ok tt, st') => forEach f l' st'
  | (Throw e, st') => (Throw e, st')
  end.
Proof.
  revert st. induction l as [|x t IH]; intros st; simpl; [reflexivity|].
  destruct (f x st) as [[[]|e] st']; [apply IH|reflexivity].
Qed.

Lemma scan_stmt_app cs cs' st :
  scan_stmt (cs ++ cs') st =
  match scan_stmt cs st with
  | (Ok tt, st') => scan_stmt cs' st'
  | (Throw e, st') => (Throw e, st')
  end.
Proof. apply forEach_app. Qed.

Lemma forEach_entries_scan (dir : string) (entries : list fs_entry) :
  Forall (fun e => forall d st,
            load_entry_stmt d e st = scan_stmt (candidates_entry d e) st)
         entries ->
  forall st,
    forEach (load_entry_stmt dir) entries st =
    scan_stmt (flat_map (candidates_entry dir) entries) st.
Proof.
  induction 1 as [|e t He _ IH]; intros st; simpl; [reflexivity|].
  rewrite scan_stmt_app, <- He.
  destruct (load_entry_stmt dir e st) as [[[]|err] st']; [apply IH|reflexivity].
Qed.

Lemma load_entry_scan (e : fs_entry) :
  forall dir st,
    load_entry_stmt dir e st = scan_stmt (candidates_entry dir e) st.
Proof.
  induction e as [file load|file entries IH] using fs_entry_tree_ind;
    intros dir st; simpl.
  - unfold load_file.
    destruct (NodePath.extname file =? ".js"); [|reflexivity].
    unfold scan_stmt, forEach, load_candidate_stmt. simpl.
    destruct (try_catch _ _ st) as [[[]|err] st']; reflexivity.
  - now apply forEach_entries_scan.
Qed.

(** The recursive scan is the candidates of the tree, loaded one after the
    other in traversal order, and it ends as that loop ends. *)
Lemma loadModules_stmt_scan dir entries st :
  loadModules_stmt dir entries st = scan_stmt (candidates dir entries) st.
Proof.
  unfold loadModules_stmt, candidates. apply forEach_entries_scan.
  apply Forall_forall. intros e _. apply load_entry_scan.
Qed.

Lemma loadModules_scan dir entries st :
  loadModules dir entries st = scan (candidates dir entries) st.
Proof. unfold loadModules, scan. now rewrite loadModules_stmt_scan. Qed.

(** How a scan of the candidates [cs] ends. *)
Fixpoint scan_end (cs : list (string * load_result)) : result unit :=
  match cs with
  | [] => Ok tt
  | c :: rest =>
      match classify (snd c) with
      | Aborted e => Throw e
      | _ => scan_end rest
      end
  end.

(** What a scan leaves behind: the contributions of the candidates it
    gets to, each appended in turn. *)
Lemma scan_stmt_spec cs st :
  scan_stmt cs st =
  (scan_end cs,
   mkState (routes st ++ flat_map bound_routes (reached cs))
           (apiModules st ++ flat_map bound_modules (reached cs))
           (totalRoutes st + length (flat_map bound_modules (reached cs)))
           (console st ++ flat_map diagnostics (reached cs))).
Proof.
  revert st. induction cs as [|c cs IH]; intros st.
  - simpl. rewrite !app_nil_r, Nat.add_0_r. now destruct st.
  - assert (Hstep : scan_stmt (c :: cs) st =
                    match load_candidate_stmt c st with
                    | (Ok tt, st') => scan_stmt cs st'
                    | (Throw e, st') => (Throw e, st')
                    end) by reflexivity.
    rewrite Hstep, load_candidate_run. clear Hstep.
    change (reached (c :: cs)) with (if aborts c then [] else c :: reached cs).
    change (scan_end (c :: cs))
      with (match classify (snd c) with
            | Aborted e => Throw e
            | _ => scan_end cs
            end).
    assert (Hr : forall l, flat_map bound_routes (c :: l) =
                           bound_routes c ++ flat_map bound_routes l)
      by reflexivity.
    assert (Hm : forall l, flat_map bound_modules (c :: l) =
                           bound_modules c ++ flat_map bound_modules l)
      by reflexivity.
    assert (Hd : forall l, flat_map diagnostics (c :: l) =
                           diagnostics c ++ flat_map diagnostics l)
      by reflexivity.
    assert (Hgo : forall o,
      match (completion o, after (fst c) o st) with
      | (Ok tt, st') => scan_stmt cs st'
      | (Throw e, st') => (Throw e, st')
      end =
      match o with
      | Aborted e => (Throw e, st)
      | _ => scan_stmt cs (after (fst c) o st)
      end) by (intros []; reflexivity).
    rewrite Hgo. clear Hgo.
    assert (Hcase :
      match classify (snd c) with
      | Aborted e => (Throw e, st)
      | _ => scan_stmt cs (after (fst c) (classify (snd c)) st)
      end =
      (match classify (snd c) with Aborted e => Throw e | _ => scan_end cs end,
       if aborts c then st
       else mkState
              (routes st ++ bound_routes c ++ flat_map bound_routes (reached cs))
              (apiModules st ++
               bound_modules c ++ flat_map bound_modules (reached cs))
              (totalRoutes st +
               length (bound_modules c ++ flat_map bound_modules (reached cs)))
              (console st ++
               diagnostics c ++ flat_map diagnostics (reached cs)))).
    { change (aborts c)
        with (match classify (snd c) with Aborted _ => true | _ => false end).
      change (bound_routes c)
        with (match classify (snd c) with Bound r _ => [r] | _ => [] end).
      change (bound_modules c)
        with (match classify (snd c) with
              | Bound _ m | Listed m => [m]
              | _ => []
              end).
      change (diagnostics c)
        with (match classify (snd c) with
              | Invalid => [WarnSkipped (fst c)]
              | Failed e => [ErrorLoading (fst c) e]
              | _ => []
              end).
      destruct (classify (snd c)); rewrite ?IH; cbn [after routes apiModules
        totalRoutes console]; rewrite <- ?app_assoc; cbn [app length];
        try reflexivity; do 2 f_equal; lia. }
    rewrite Hcase. f_equal.
    destruct (aborts c); [|now rewrite Hr, Hm, Hd].
    simpl. rewrite !app_nil_r, Nat.add_0_r. now destruct st.
Qed.

Lemma scan_spec cs st :
  scan cs st =
  mkState (routes st ++ flat_map bound_routes (reached cs))
          (apiModules st ++ flat_map bound_modules (reached cs))
          (totalRoutes st + length (flat_map bound_modules (reached cs)))
          (console st ++ flat_map diagnostics (reached cs)).
Proof. unfold scan. now rewrite scan_stmt_spec. Qed.

Lemma reached_incl cs c : In c (reached cs) -> In c cs.
Proof.
  induction cs as [|c0 cs IH]; simpl; [tauto|].
  destruct (aborts c0); simpl; [tauto|]. intros [H|H]; auto.
Qed.

Lemma reached_all cs :
  (forall c, In c cs -> aborts c = false) -> reached cs = cs.
Proof.
  induction cs as [|c0 cs IH]; simpl; intros H; [reflexivity|].
  rewrite (H c0) by now left. f_equal. apply IH. auto.
Qed.

Lemma scan_end_all cs :
  (forall c, In c cs -> aborts c = false) -> scan_end cs = Ok tt.
Proof.
  induction cs as [|c0 cs IH]; simpl; intros H; [reflexivity|].
  pose proof (H c0 (or_introl eq_refl)) as H0. unfold aborts in H0.
  destruct (classify (snd c0)); try discriminate; apply IH; auto.
Qed.

Lemma bound_routes_length cs :
  length (flat_map bound_routes cs) = length (filter binds cs).
Proof.
  induction cs as [|c cs IH]; simpl; [reflexivity|].
  unfold bound_routes, binds at 1.
  destruct (classify (snd c)); simpl; auto.
Qed.

Lemma bound_modules_length cs :
  length (flat_map bound_modules cs) =
  length (filter binds cs) + length (filter lists cs).
Proof.
  induction cs as [|c cs IH]; [reflexivity|].
  cbn [flat_map filter]. rewrite length_app, IH.
  unfold bound_modules, binds, lists.
  destruct (classify (snd c)); simpl; lia.
Qed.

Lemma diagnostics_length cs :
  length (flat_map diagnostics cs) = length (filter diagnosed cs).
Proof.
  induction cs as [|c cs IH]; simpl; [reflexivity|].
  unfold diagnostics, diagnosed at 1.
  destruct (classify (snd c)); simpl; auto.
Qed.

(** Every candidate is bound, diagnosed, listed or makes the scan
    throw. *)
Lemma outcomes_length cs :
  length (filter binds cs) + length (filter diagnosed cs) +
  length (filter lists cs) + length (filter aborts cs) = length cs.
Proof.
  induction cs as [|c cs IH]; [reflexivity|].
  cbn [filter length]. rewrite <- IH.
  unfold binds, diagnosed, lists, aborts.
  destruct (classify (snd c)); simpl; lia.
Qed.

Lemma filter_none {A} (f : A -> bool) (l : list A) :
  (forall x, In x l -> f x = false) -> filter f l = [].
Proof.
  induction l as [|x l IH]; simpl; intros H; [reflexivity|].
  rewrite (H x) by now left. apply IH. auto.
Qed.

(* ================================================================== *)
(** * Validation and isolation *)
(* ================================================================== *)

Lemma invalid_format_spec module meta onStart :
  get_prop module "meta" = Ok meta ->
  get_prop module "onStart" = Ok onStart ->
  invalid_format module =
  Ok (negb (truthy meta) || negb (truthy onStart)
      || negb (typeof onStart =? "function")).
Proof.
  intros Hm Ho. unfold invalid_format. rewrite Hm. simpl.
  destruct (truthy meta); simpl; [|reflexivity].
  rewrite Ho. simpl. destruct (truthy onStart); reflexivity.
Qed.

Lemma invalid_conditions meta onStart :
  (absent meta \/ absent onStart \/ ~ invocable onStart) <->
  negb (truthy meta) || negb (truthy onStart)
  || negb (typeof onStart =? "function") = true.
Proof.
  unfold absent, invocable.
  rewrite !orb_true_iff, !negb_true_iff, String.eqb_neq. tauto.
Qed.

Lemma app_one_neq {A} (l : list A) (x : A) : l <> l ++ [x].
Proof.
  intros H. apply (f_equal (@length A)) in H.
  rewrite length_app in H. simpl in H. lia.
Qed.

Lemma unit_member_read module k :
  module <> VNull -> module <> VUndefined ->
  get_prop module k = Ok (unit_member module k).
Proof.
  intros Hn Hu. unfold unit_member.
  destruct module; simpl; try reflexivity; contradiction.
Qed.

Lemma loadModules_stmt_app dir pre post st :
  loadModules_stmt dir (pre ++ post) st =
  match loadModules_stmt dir pre st with
  | (Ok tt, st') => loadModules_stmt dir post st'
  | (Throw e, st') => (Throw e, st')
  end.
Proof. apply forEach_app. Qed.

(** A unit whose [try]/[catch] statement returns does not stop the scan:
    the entries listed after it are scanned from the globals it leaves. *)
Lemma scan_goes_on dir file load pre post st0 :
  NodePath.extname file = ".js" ->
  fst (loadModules_stmt dir pre st0) = Ok tt ->
  fst (load_candidate_stmt (NodePath.join dir file, load)
                           (loadModules dir pre st0)) = Ok tt ->
  loadModules_stmt dir (pre ++ FsFile file load :: post) st0 =
  loadModules_stmt dir post
    (load_candidate (NodePath.join dir file, load) (loadModules dir pre st0)).
Proof.
  intros Hext Hpre Hc. rewrite loadModules_stmt_app.
  unfold loadModules in *.
  destruct (loadModules_stmt dir pre st0) as [[[]|e] st1]; [|discriminate].
  simpl in Hc |- *. unfold loadModules_stmt at 1. simpl.
  unfold load_file. apply String.eqb_eq in Hext. rewrite Hext.
  unfold load_candidate, load_candidate_stmt in *. simpl in *.
  destruct (try_catch _ _ st1) as [[[]|e] st2]; [reflexivity|discriminate].
Qed.

(** A unit that makes the [catch] block throw stops the scan: the entries
    listed after it are not scanned, and the throw leaves [loadModules]. *)
Lemma scan_stops dir file load pre post st0 e :
  NodePath.extname file = ".js" ->
  fst (loadModules_stmt dir pre st0) = Ok tt ->
  classify load = Aborted e ->
  loadModules_stmt dir (pre ++ FsFile file load :: post) st0 =
  (Throw e, loadModules dir pre st0).
Proof.
  intros Hext Hpre Hc. rewrite loadModules_stmt_app.
  unfold loadModules in *.
  destruct (loadModules_stmt dir pre st0) as [[[]|e0] st1]; [|discriminate].
  cbn [snd]. unfold loadModules_stmt. cbn [forEach load_entry_stmt].
  unfold load_file. apply String.eqb_eq in Hext. rewrite Hext.
  pose proof (load_candidate_run (NodePath.join dir file, load) st1) as Hrun.
  unfold load_candidate_stmt in Hrun. cbn [fst snd] in Hrun.
  rewrite Hrun, Hc. reflexivity.
Qed.

(** C3 (as the code has it): a unit whose exports are not [null] or
    [undefined] is rejected as invalid, with the warning that names the file
    it was loaded from, exactly when its metadata is absent, or its entry
    point is absent, or its entry point is not a function.  A unit whose
    exports are [null] or [undefined] is not: reading its metadata throws,
    and the [catch] block reports it by [console.error].  Either way the
    unit adds no route, no catalog entry and nothing to the route count, its
    statement returns, and the entries listed after it are scanned. *)
Theorem C3_invalid_unit_skipped
    (filePath : string) (module : jsval) (st : state) :
  let st' := load_candidate (filePath, LoadExports module) st in
  let invalid :=
    absent (unit_member module "meta") \/
    absent (unit_member module "onStart") \/
    ~ invocable (unit_member module "onStart") in
  (module <> VNull -> module <> VUndefined ->
   (invalid <-> console st' = console st ++ [WarnSkipped filePath])) /\
  (module = VNull \/ module = VUndefined ->
   console st' =
   console st ++ [ErrorLoading filePath (TypeError "reading 'meta'")]) /\
  (invalid ->
   routes st' = routes st /\ apiModules st' = apiModules st /\
   totalRoutes st' = totalRoutes st /\
   fst (load_candidate_stmt (filePath, LoadExports module) st) = Ok tt /\
   forall dir file pre post st0,
     NodePath.extname file = ".js" ->
     fst (loadModules_stmt dir pre st0) = Ok tt ->
     loadModules_stmt dir (pre ++ FsFile file (LoadExports module) :: post) st0 =
     loadModules_stmt dir post
       (load_candidate (NodePath.join dir file, LoadExports module)
                       (loadModules dir pre st0))).
Proof.
  intros st' invalid. subst st'.
  assert (Hnull : module = VNull \/ module = VUndefined ->
                  classify (LoadExports module) =
                  Failed (TypeError "reading 'meta'")).
  { intros [->| ->]; reflexivity. }
  assert (Hread : module <> VNull -> module <> VUndefined ->
                  classify (LoadExports module) = Invalid <-> invalid).
  { intros Hn Hu. subst invalid. rewrite invalid_conditions. unfold classify.
    rewrite (invalid_format_spec _ _ _ (unit_member_read _ "meta" Hn Hu)
                                       (unit_member_read _ "onStart" Hn Hu)).
    destruct (negb (truthy (unit_member module "meta"))
              || negb (truthy (unit_member module "onStart"))
              || negb (typeof (unit_member module "onStart") =? "function")).
    - tauto.
    - split; [|discriminate].
      destruct (describe module) as [d|e]; [unfold register; destruct d as
        [[method routePath] m]; destruct (existsb _ verbs);
        [destruct (path_error routePath)|destruct (member method routePath)]|];
        unfold caught; try destruct (error_message _); discriminate. }
  assert (Hskip : invalid ->
    classify (LoadExports module) = Invalid \/
    classify (LoadExports module) = Failed (TypeError "reading 'meta'")).
  { intros Hi.
    destruct module; try (left; apply Hread; [discriminate..|exact Hi]);
      right; apply Hnull; auto. }
  rewrite load_candidate_classify. simpl fst. simpl snd.
  split; [|split].
  - intros Hn Hu. split.
    + intros Hi. apply (Hread Hn Hu) in Hi. now rewrite Hi.
    + intros H. apply (Hread Hn Hu).
      destruct (classify (LoadExports module)); simpl in H;
        try reflexivity; try (now apply app_one_neq in H).
      apply app_inv_head in H. discriminate.
  - intros Hnu. now rewrite (Hnull Hnu).
  - intros Hi.
    assert (Hret : fst (load_candidate_stmt (filePath, LoadExports module) st)
                   = Ok tt).
    { rewrite load_candidate_run. cbn [fst snd].
      destruct (Hskip Hi) as [-> | ->]; reflexivity. }
    split; [|split; [|split; [|split; [exact Hret|]]]];
      try (destruct (Hskip Hi) as [-> | ->]; reflexivity).
    intros dir file pre post st0 Hext Hpre. apply scan_goes_on; auto.
    rewrite load_candidate_run. cbn [fst snd].
    destruct (Hskip Hi) as [-> | ->]; reflexivity.
Qed.

(** Where the isolation of the scan holds: when no candidate makes the
    [catch] block throw and none is listed without a route, a tree with [N]
    candidates of which [k] are invalid or throw while they are loaded has
    [N - k] routes bound and [k] diagnostics logged, one naming each such
    unit (for a unit that threw an error, with the message thrown), and
    scanning the candidates in another order binds the same routes and logs
    the same diagnostics. *)
Lemma scan_isolation (dir : string) (entries : list fs_entry) (N k : nat) :
  (forall c, In c (candidates dir entries) -> aborts c = false) ->
  (forall c, In c (candidates dir entries) -> lists c = false) ->
  length (candidates dir entries) = N ->
  length (filter diagnosed (candidates dir entries)) = k ->
  let st := loadModules dir entries init in
  fst (loadModules_stmt dir entries init) = Ok tt /\
  length (routes st) = N - k /\
  totalRoutes st = N - k /\
  length (console st) = k /\
  (forall c,
     In c (candidates dir entries) -> diagnosed c = true ->
     exists l,
       In l (console st) /\ line_path l = fst c /\
       (forall message,
          snd c = LoadThrows message ->
          l = ErrorLoading (fst c) (Thrown message))) /\
  (forall cs',
     Permutation (candidates dir entries) cs' ->
     let st' := scan cs' init in
     Permutation (routes st') (routes st) /\
     Permutation (apiModules st') (apiModules st) /\
     totalRoutes st' = totalRoutes st /\
     Permutation (console st') (console st)).
Proof.
  intros Hab Hli HN Hk st. subst st.
  rewrite loadModules_stmt_scan, loadModules_scan, scan_stmt_spec, scan_spec.
  rewrite (reached_all _ Hab). cbn [fst routes apiModules totalRoutes console
    init app]. 
  pose proof (outcomes_length (candidates dir entries)) as Hsplit.
  rewrite (filter_none lists _ Hli), (filter_none aborts _ Hab) in Hsplit.
  simpl in Hsplit.
  rewrite bound_routes_length, bound_modules_length, diagnostics_length,
    (filter_none lists _ Hli).
  split; [now apply scan_end_all|].
  split; [lia|]. split; [simpl; lia|]. split; [lia|]. split.
  - intros c Hin Hd. exists (hd (WarnSkipped "") (diagnostics c)).
    assert (Hline : diagnostics c = [hd (WarnSkipped "") (diagnostics c)]).
    { unfold diagnostics, diagnosed in *. now destruct (classify (snd c)). }
    split; [|split].
    + apply in_flat_map. exists c. split; [assumption|].
      rewrite Hline. now left.
    + unfold diagnostics, diagnosed in *. now destruct (classify (snd c)).
    + intros message Hload. unfold diagnostics, classify. now rewrite Hload.
  - intros cs' Hperm.
    assert (Hab' : forall c, In c cs' -> aborts c = false).
    { intros c Hc. apply Hab. now apply (Permutation_in _ (Permutation_sym Hperm)). }
    rewrite scan_spec, (reached_all _ Hab').
    cbn [routes apiModules totalRoutes console init app].
    repeat split.
    + symmetry. now apply Permutation_flat_map.
    + symmetry. now apply Permutation_flat_map.
    + rewrite (Permutation_length
                 (Permutation_flat_map bound_modules (Permutation_sym Hperm))).
      rewrite bound_modules_length, (filter_none lists _ Hli). simpl. lia.
    + symmetry. now apply Permutation_flat_map.
Qed.


(* ================================================================== *)
(** * Route binding *)
(* ================================================================== *)

(** The first part of a split is what precedes the first separator. *)
Lemma split_on_first (c : ascii) (s : string) :
  exists h r rest,
    split_on c s = h :: r /\ includes c h = false /\ s = (h ++ rest)%string /\
    (rest = "" \/ exists q, rest = String c q).
Proof.
  induction s as [|a t (h & r & rest & Hs & Hh & Ht & Hrest)]; simpl.
  - exists "", [], "". repeat split; auto.
  - destruct (Ascii.eqb a c) eqn:E.
    + apply Ascii.eqb_eq in E; subst a.
      exists "", (split_on c t), (String c t). repeat split; eauto.
    + rewrite Hs. exists (String a h), r, rest. simpl. rewrite E, Hh.
      repeat split; auto. now rewrite Ht at 1.
Qed.

Lemma verb_In (method : string) :
  existsb (String.eqb method) verbs = true <-> In method verbs.
Proof.
  rewrite existsb_exists. split.
  - intros (x & Hin & Heq). apply String.eqb_eq in Heq. now subst.
  - intros Hin. exists method. split; [assumption|apply String.eqb_refl].
Qed.

Lemma get_prop_string_is_object meta k s :
  get_prop meta k = Ok (VStr s) -> exists ps, meta = VObj ps.
Proof. destruct meta; simpl; try discriminate. eauto. Qed.

Lemma append_empty_r (s : string) : (s ++ "")%string = s.
Proof. induction s; simpl; congruence. Qed.

Lemma hd_split_whole c a :
  includes c a = false -> hd "" (split_on c a) = a.
Proof.
  induction a as [|x t IH]; simpl; [reflexivity|].
  destruct (Ascii.eqb x c); simpl; [discriminate|]. intros H.
  specialize (IH H). destruct (split_on c t); simpl in *; now subst.
Qed.

Lemma hd_split_before c a q :
  includes c a = false -> hd "" (split_on c (a ++ String c q)) = a.
Proof.
  induction a as [|x t IH]; simpl.
  - now rewrite Ascii.eqb_refl.
  - destruct (Ascii.eqb x c); simpl; [discriminate|]. intros H.
    specialize (IH H). destruct (split_on c (t ++ String c q)); simpl in *;
      now subst.
Qed.

Lemma split_on_whole c s : includes c s = false -> split_on c s = [s].
Proof.
  induction s as [|a t IH]; simpl; [reflexivity|].
  destruct (Ascii.eqb a c); simpl; [discriminate|].
  intros H. now rewrite IH.
Qed.

Lemma split_on_before c a b :
  includes c a = false ->
  split_on c (a ++ String c b) = a :: split_on c b.
Proof.
  induction a as [|x t IH]; simpl.
  - now rewrite Ascii.eqb_refl.
  - destruct (Ascii.eqb x c); simpl; [discriminate|].
    intros H. now rewrite IH.
Qed.

Lemma includes_before c a b : includes c (a ++ String c b) = true.
Proof.
  induction a as [|x t IH]; simpl.
  - now rewrite Ascii.eqb_refl.
  - rewrite IH. apply orb_true_r.
Qed.

Lemma append_assoc (a b c : string) :
  ((a ++ b) ++ c)%string = (a ++ (b ++ c))%string.
Proof. induction a; simpl; congruence. Qed.



(** What a unit that comes to a call was made of. *)
Lemma describe_inv module method routePath m :
  describe module = Ok (method, routePath, m) ->
  exists ps p meta_method s,
    get_prop module "meta" = Ok (VObj ps) /\
    get_prop (VObj ps) "path" = Ok (VStr p) /\
    get_prop (VObj ps) "method" = Ok meta_method /\
    js_or meta_method (VStr "get") = VStr s /\ s <> "" /\
    method = toLowerCase s /\
    routePath = ("/api" ++ hd "" (split_on question p))%string /\
    get_prop (VObj ps) "name" = Ok (am_name m) /\
    get_prop (VObj ps) "description" = Ok (am_description m) /\
    get_prop (VObj ps) "category" = Ok (am_category m) /\
    get_prop (VObj ps) "author" = Ok (am_author m) /\
    am_method m = VStr s /\
    am_path m =
    (routePath ++
     if includes question p
     then String question (nth 1 (split_on question p) "undefined")
     else "")%string.
Proof.
  unfold describe.
  destruct (get_prop module "meta") as [meta|]; cbn [rbind]; [|discriminate].
  destruct meta as [| | | | |elems|ps|src]; try discriminate.
  destruct (get_prop (VObj ps) "path") as [[| | | |p| | |]|] eqn:Hp;
    try discriminate.
  cbn [rbind js_split].
  destruct (get_prop (VObj ps) "method") as [meta_method|] eqn:Hm;
    cbn [rbind]; [|discriminate].
  destruct (js_or meta_method (VStr "get")) as [| | | |s| | |] eqn:Hor;
    try discriminate.
  cbn [js_toLowerCase rbind]. simpl get_prop. cbn [rbind].
  intros [= <- <- <-].
  exists ps, p, meta_method, s. cbn [am_name am_description am_category
    am_author am_method am_path].
  assert (Hs : s <> "").
  { intros ->. unfold js_or in Hor.
    destruct (truthy meta_method) eqn:T; [|discriminate].
    subst meta_method. discriminate. }
  destruct (split_on_first question p) as (h & t & rest & Hsplit & _).
  rewrite Hsplit.
  repeat (split; [first [reflexivity | assumption]|]).
  destruct (includes question p); [|reflexivity].
  destruct t; reflexivity.
Qed.

(** A descriptor with a string path and a method that is absent or a
    string comes to a call. *)
Lemma describe_call module meta p meta_method method :
  get_prop module "meta" = Ok meta ->
  get_prop meta "path" = Ok (VStr p) ->
  get_prop meta "method" = Ok meta_method ->
  js_toLowerCase (js_or meta_method (VStr "get")) = Ok method ->
  exists m,
    describe module =
    Ok (method, ("/api" ++ hd "" (split_on question p))%string, m).
Proof.
  intros Hmeta Hp Hmm Hlow.
  destruct (get_prop_string_is_object _ _ _ Hp) as (ps & ->).
  unfold describe. rewrite Hmeta. cbn [rbind]. rewrite Hp.
  cbn [rbind js_split]. rewrite Hmm. cbn [rbind]. rewrite Hlow.
  cbn [rbind]. simpl get_prop. cbn [rbind].
  destruct (split_on_first question p) as (h & t & rest & Hsplit & _).
  rewrite Hsplit. eauto.
Qed.

Lemma caught_cases e :
  (caught e = Failed e) \/ (exists e', caught e = Aborted e').
Proof. unfold caught. destruct (error_message e); eauto. Qed.

Lemma classify_valid module :
  invalid_format module = Ok false ->
  classify (LoadExports module) =
  match describe module with
  | Ok d => register module d
  | Throw e => caught e
  end.
Proof. intros H. unfold classify. now rewrite H. Qed.

(** What a bound unit was made of, and a listed one. *)
Lemma classify_Bound load r m :
  classify load = Bound r m ->
  exists module,
    load = LoadExports module /\ invalid_format module = Ok false /\
    describe module = Ok (r_method r, r_path r, m) /\
    r_module r = module /\ In (r_method r) verbs /\
    path_error (r_path r) = None.
Proof.
  assert (Hc : forall e, caught e <> Bound r m).
  { intros e. destruct (caught_cases e) as [-> | (e' & ->)]; discriminate. }
  destruct load as [message|value|module]; simpl;
    try (intros H; now apply Hc in H).
  destruct (invalid_format module) as [[|]|e] eqn:Hi; try discriminate;
    try (intros H; now apply Hc in H).
  destruct (describe module) as [[[method routePath] m']|e] eqn:Hd;
    [|intros H; now apply Hc in H].
  unfold register.
  destruct (existsb (String.eqb method) verbs) eqn:Hv.
  - destruct (path_error routePath) eqn:Hp; [intros H; now apply Hc in H|].
    intros [= <- <-]. exists module. apply verb_In in Hv. simpl. auto 8.
  - destruct (member method routePath); try discriminate;
      intros H; now apply Hc in H.
Qed.

Lemma classify_Listed load m :
  classify load = Listed m ->
  exists module method routePath,
    load = LoadExports module /\ invalid_format module = Ok false /\
    describe module = Ok (method, routePath, m) /\
    ~ In method verbs /\ member method routePath = Returned.
Proof.
  assert (Hc : forall e, caught e <> Listed m).
  { intros e. destruct (caught_cases e) as [-> | (e' & ->)]; discriminate. }
  destruct load as [message|value|module]; simpl;
    try (intros H; now apply Hc in H).
  destruct (invalid_format module) as [[|]|e] eqn:Hi; try discriminate;
    try (intros H; now apply Hc in H).
  destruct (describe module) as [[[method routePath] m']|e] eqn:Hd;
    [|intros H; now apply Hc in H].
  unfold register.
  destruct (existsb (String.eqb method) verbs) eqn:Hv.
  - destruct (path_error routePath); [intros H; now apply Hc in H|discriminate].
  - destruct (member method routePath) eqn:Hm; try discriminate;
      try (intros H; now apply Hc in H).
    intros [= <-]. exists module, method, routePath.
    repeat (split; [first [reflexivity|assumption]|]). split; [|assumption].
    intros Hin. apply verb_In in Hin. congruence.
Qed.


(** C6 (as the code has it): binding never looks at what is registered.  A
    unit that resolves to a route adds that route, its catalog entry and one
    to the count, and logs nothing, also when a route with the same method
    and path is registered already; the earlier registration stays in
    place. *)
Theorem C6_no_conflict_check
    (filePath : string) (load : load_result) (r r0 : Route) (m : ApiModule)
    (st : state) :
  classify load = Bound r m ->
  In r0 (routes st) ->
  r_method r0 = r_method r -> r_path r0 = r_path r ->
  let st' := load_candidate (filePath, load) st in
  routes st' = routes st ++ [r] /\
  apiModules st' = apiModules st ++ [m] /\
  totalRoutes st' = S (totalRoutes st) /\
  console st' = console st /\
  In r0 (routes st').
Proof.
  intros Hc Hin _ _ st'. subst st'.
  rewrite load_candidate_classify. simpl fst. simpl snd. rewrite Hc. simpl.
  repeat split. apply in_or_app. now left.
Qed.

(* ================================================================== *)
(** * The catalog *)
(* ================================================================== *)

Lemma filter_snoc {A} (f : A -> bool) (l : list A) (x : A) :
  filter f (l ++ [x]) = filter f l ++ (if f x then [x] else []).
Proof. now rewrite filter_app. Qed.

Lemma grouped_snoc_other l m k :
  in_category k m = false -> grouped (l ++ [m]) k = grouped l k.
Proof.
  intros H. unfold grouped. now rewrite filter_snoc, H, app_nil_r.
Qed.

Lemma in_category_self m : in_category (category_key m) m = true.
Proof. apply String.eqb_refl. Qed.

Lemma grouped_snoc_first l m :
  grouped l (category_key m) = None ->
  grouped (l ++ [m]) (category_key m) =
  Some (mkCategory (am_category m) [item_of m]).
Proof.
  unfold grouped. rewrite filter_snoc, in_category_self.
  destruct (filter (in_category (category_key m)) l); [reflexivity|discriminate].
Qed.

Lemma grouped_snoc_next l m c :
  grouped l (category_key m) = Some c ->
  grouped (l ++ [m]) (category_key m) =
  Some (mkCategory (c_name c) (c_items c ++ [item_of m])).
Proof.
  unfold grouped. rewrite filter_snoc, in_category_self.
  destruct (filter (in_category (category_key m)) l); [discriminate|].
  intros [= <-]. simpl. now rewrite map_app.
Qed.

(** One round of the grouping loop keeps the categories in step with the
    modules seen so far. *)
Lemma group_step_spec categories l m :
  NoDup (map fst categories) ->
  (forall k, obj_get k categories = grouped l k) ->
  inherited (category_key m) = false ->
  exists categories',
    group_step categories m = Ok categories' /\
    NoDup (map fst categories') /\
    (forall k, obj_get k categories' = grouped (l ++ [m]) k).
Proof.
  intros Hnd Hinv Hni. unfold group_step, categories_get.
  fold (category_key m). rewrite Hni.
  destruct (obj_get (category_key m) categories) as [c|] eqn:G.
  - rewrite G. eexists. split; [reflexivity|]. split.
    + now apply obj_set_NoDup.
    + intros k. destruct (String.eqb_spec (category_key m) k) as [<-|Hne].
      * rewrite obj_get_set_same. symmetry. apply grouped_snoc_next.
        now rewrite <- Hinv.
      * rewrite obj_get_set_other by congruence. rewrite Hinv.
        symmetry. apply grouped_snoc_other. unfold in_category.
        now apply String.eqb_neq.
  - rewrite obj_get_set_same. eexists. split; [reflexivity|]. split.
    + now apply obj_set_NoDup, obj_set_NoDup.
    + intros k. destruct (String.eqb_spec (category_key m) k) as [<-|Hne].
      * rewrite obj_get_set_same. symmetry. apply grouped_snoc_first.
        now rewrite <- Hinv.
      * rewrite !obj_get_set_other by congruence. rewrite Hinv.
        symmetry. apply grouped_snoc_other. unfold in_category.
        now apply String.eqb_neq.
Qed.

Lemma group_all_spec entries :
  forall categories l,
    NoDup (map fst categories) ->
    (forall k, obj_get k categories = grouped l k) ->
    (forall m, In m entries -> inherited (category_key m) = false) ->
    exists categories',
      group_all categories entries = Ok categories' /\
      NoDup (map fst categories') /\
      (forall k, obj_get k categories' = grouped (l ++ entries) k).
Proof.
  induction entries as [|m rest IH]; intros categories l Hnd Hinv Hni; simpl.
  - exists categories. rewrite app_nil_r. auto.
  - destruct (group_step_spec categories l m Hnd Hinv) as (c1 & Hs & Hnd1 & Hinv1).
    { apply Hni. now left. }
    rewrite Hs. simpl.
    destruct (IH c1 (l ++ [m]) Hnd1 Hinv1) as (c2 & Hg & Hnd2 & Hinv2).
    { intros m' Hin. apply Hni. now right. }
    exists c2. rewrite <- app_assoc in Hinv2. auto.
Qed.

(** The catalog of modules none of whose category keys names an inherited
    member: one category per key, holding the modules of that key in
    recorded order and named after the first of them. *)
Lemma buildCatalog_spec entries :
  (forall m, In m entries -> inherited (category_key m) = false) ->
  exists categories,
    buildCatalog entries = Ok (map snd categories) /\
    NoDup (map fst categories) /\
    (forall k, obj_get k categories = grouped entries k).
Proof.
  intros Hni.
  destruct (group_all_spec entries [] [] (NoDup_nil _) (fun _ => eq_refl) Hni)
    as (cats & Hg & Hnd & Hinv).
  exists cats. unfold buildCatalog. rewrite Hg. auto.
Qed.

(** A category key that names an inherited member stops the loop: the
    member found under it has no [items]. *)
Lemma group_all_inherited entries :
  forall categories,
    (forall k, inherited k = true -> obj_get k categories = None) ->
    (exists m, In m entries /\ inherited (category_key m) = true) ->
    exists e, group_all categories entries = Throw e.
Proof.
  induction entries as [|m rest IH]; intros categories Hfree (m0 & Hin & Hinh).
  - destruct Hin.
  - simpl. unfold group_step at 1, categories_get. fold (category_key m).
    destruct (inherited (category_key m)) eqn:E.
    + rewrite (Hfree _ E). rewrite (Hfree _ E). simpl. eauto.
    + destruct Hin as [->|Hin]; [congruence|].
      assert (Hstep : forall k c,
        inherited k = true ->
        obj_get k (obj_set (category_key m) c categories) = None).
      { intros k c Hk. rewrite obj_get_set_other; [auto|congruence]. }
      destruct (obj_get (category_key m) categories) as [c|] eqn:G.
      * rewrite G. simpl. apply IH; eauto.
      * rewrite obj_get_set_same. simpl. apply IH; [|eauto].
        intros k Hk. rewrite obj_get_set_other by congruence. auto.
Qed.

Lemma buildCatalog_inherited entries m :
  In m entries -> inherited (category_key m) = true ->
  exists e, buildCatalog entries = Throw e.
Proof.
  intros Hin Hinh.
  destruct (group_all_inherited entries [] (fun _ _ => eq_refl)) as (e & He).
  { eauto. }
  exists e. unfold buildCatalog. now rewrite He.
Qed.

Lemma grouped_In entries k c :
  grouped entries k = Some c ->
  c_items c = map item_of (filter (in_category k) entries) /\
  to_string (c_name c) = k /\
  exists m rest, filter (in_category k) entries = m :: rest /\
                 c_name c = am_category m.
Proof.
  unfold grouped.
  destruct (filter (in_category k) entries) as [|m rest] eqn:F; [discriminate|].
  intros [= <-]. simpl. split; [reflexivity|]. split; [|eauto].
  assert (Hin : In m (filter (in_category k) entries)) by (rewrite F; now left).
  apply filter_In in Hin. destruct Hin as [_ Hk].
  unfold in_category, category_key in Hk. now apply String.eqb_eq.
Qed.

Lemma grouped_member entries m :
  In m entries ->
  exists c, grouped entries (category_key m) = Some c /\
            In (item_of m) (c_items c).
Proof.
  intros Hin. unfold grouped.
  assert (Hf : In m (filter (in_category (category_key m)) entries)).
  { apply filter_In. split; [assumption|]. apply String.eqb_refl. }
  destruct (filter (in_category (category_key m)) entries) as [|m0 rest];
    [destruct Hf|].
  eexists. split; [reflexivity|]. simpl c_items.
  now apply (in_map item_of) in Hf.
Qed.

(** The two paths of a descriptor path, as the code computes them. *)
Lemma path_shown_of (p : string) :
  path_shown p
    ("/api" ++ hd "" (split_on question p))
    (("/api" ++ hd "" (split_on question p)) ++
     if includes question p
     then String question (nth 1 (split_on question p) "undefined")
     else "").
Proof.
  destruct (includes question p) eqn:Hinc.
  - right.
    destruct (split_on_first question p) as (a & t & rest & _ & Ha & Hp & Hrest).
    destruct Hrest as [->|(q & ->)].
    { rewrite append_empty_r in Hp. subst a. congruence. }
    destruct (split_on_first question q)
      as (b & t' & tail & Hs' & Hb & Hq & Htail).
    exists a, b, tail. subst p.
    rewrite (split_on_before _ _ _ Ha), Hs'. simpl hd. simpl nth.
    rewrite <- Hq. auto 8.
  - left. rewrite (split_on_whole _ _ Hinc). simpl hd.
    now rewrite append_empty_r.
Qed.

Lemma path_shown_shows p module method name description category author
    meta_method route_path catalog_path :
  path_shown p route_path catalog_path ->
  shows (mkRoute method route_path module)
        (mkApiModule name description category catalog_path author
                     meta_method).
Proof.
  unfold shows, resolved_part. cbn [r_path am_path].
  intros [(Hno & -> & ->)|(a & b & tail & -> & Ha & Hb & _ & -> & ->)].
  - split; [|now left]. apply (hd_split_whole question ("/api" ++ p)). exact Hno.
  - split; [|right; eauto].
    apply (hd_split_before question ("/api" ++ a)). exact Ha.
Qed.

(** A bound route and its catalog entry. *)
Lemma classify_records load r m :
  classify load = Bound r m ->
  records r m /\ shows r m /\ registered m = true.
Proof.
  intros H.
  destruct (classify_Bound _ _ _ H) as (module & _ & _ & Hd & Hmod & Hv & _).
  destruct (describe_inv _ _ _ _ Hd)
    as (ps & p & mm & s & Hmeta & Hpath & _ & _ & _ & Hmeth & Hrp & _ & _ & _
        & _ & Ham & Hap).
  pose proof (path_shown_of p) as Hshown. rewrite <- Hrp, <- Hap in Hshown.
  split; [|split].
  - exists (VObj ps), p. rewrite Hmod. auto.
  - destruct r as [method route_path module'], m as [n d c cp a mm'].
    now apply (path_shown_shows p).
  - unfold registered. rewrite Ham. simpl to_string. rewrite <- Hmeth.
    now apply verb_In.
Qed.

Lemma classify_unregistered load m :
  classify load = Listed m -> registered m = false.
Proof.
  intros H.
  destruct (classify_Listed _ _ H)
    as (module & method & routePath & _ & _ & Hd & Hnot & _).
  destruct (describe_inv _ _ _ _ Hd)
    as (ps & p & mm & s & _ & _ & _ & _ & _ & Hmeth & _ & _ & _ & _ & _ & Ham & _).
  unfold registered. rewrite Ham. simpl to_string. rewrite <- Hmeth.
  destruct (existsb (String.eqb method) verbs) eqn:E; [|reflexivity].
  apply verb_In in E. contradiction.
Qed.

(** The routes of a scan pair off, in order, with the catalog entries
    recorded for registration methods. *)
Lemma bound_pairs (R : Route -> ApiModule -> Prop) :
  (forall load r m, classify load = Bound r m -> R r m) ->
  forall cs,
    Forall2 R (flat_map bound_routes cs)
              (filter registered (flat_map bound_modules cs)).
Proof.
  intros HR. induction cs as [|[filePath load] cs IH]; [constructor|].
  cbn [flat_map]. rewrite filter_app.
  unfold bound_routes at 1, bound_modules at 1. cbn [snd].
  destruct (classify load) as [r m| |e|m|e] eqn:E; cbn [app filter];
    try assumption.
  - rewrite (proj2 (proj2 (classify_records _ _ _ E))). cbn [app].
    constructor; [now apply (HR load)|assumption].
  - now rewrite (classify_unregistered _ _ E).
Qed.

Lemma filter_all {A} (f : A -> bool) (l : list A) :
  (forall x, In x l -> f x = true) -> filter f l = l.
Proof.
  induction l as [|x l IH]; simpl; intros H; [reflexivity|].
  rewrite (H x) by now left. f_equal. apply IH. auto.
Qed.

Lemma catalog_paths_spec entries categories :
  NoDup (map fst categories) ->
  (forall k, obj_get k categories = grouped entries k) ->
  forall p, In p (catalog_paths (map snd categories)) <->
            In p (map am_path entries).
Proof.
  intros Hnd Hinv p. unfold catalog_paths. rewrite in_flat_map. split.
  - intros (c & Hc & Hp).
    apply in_map_iff in Hc. destruct Hc as ([k c'] & Heq & Hin).
    simpl in Heq. subst c'.
    apply (In_obj_get _ _ _ Hnd) in Hin. rewrite Hinv in Hin.
    apply grouped_In in Hin. destruct Hin as (Hitems & _).
    rewrite Hitems, map_map in Hp. apply in_map_iff in Hp.
    destruct Hp as (m & <- & Hm). apply filter_In in Hm.
    apply in_map_iff. exists m. split; [reflexivity|apply Hm].
  - intros Hp. apply in_map_iff in Hp. destruct Hp as (m & <- & Hm).
    destruct (grouped_member entries m Hm) as (c & Hg & Hi).
    exists c. split.
    + rewrite <- Hinv in Hg. apply obj_get_In in Hg.
      now apply (in_map snd) in Hg.
    + apply in_map_iff. exists (item_of m). auto.
Qed.

(** C7 (as the code has it): when no recorded category names an inherited
    member and every catalog entry was recorded for a registration method
    of the router, the catalog of [GET /api/info] shows exactly the paths
    recorded for the bound routes, one entry per route in bind order.  The
    path recorded for a route is the route's resolved path when the
    descriptor's path has no ['?']; otherwise it is the resolved path, the
    ['?'] and the text of the descriptor's path between its first ['?'] and
    its second (or its end).  So it is the resolved path up to its first
    ['?']. *)
Theorem C7_catalog_paths (dir : string) (entries : list fs_entry) :
  let st := loadModules dir entries init in
  (forall m, In m (apiModules st) -> inherited (category_key m) = false) ->
  (forall m, In m (apiModules st) -> registered m = true) ->
  exists categories,
    buildCatalog (apiModules st) = Ok categories /\
    api_info st =
    res_json (VObj [("categories", VArr (map category_json categories))]) /\
    (forall p, In p (catalog_paths categories) <->
               In p (map am_path (apiModules st))) /\
    Forall2 records (routes st) (apiModules st) /\
    Forall2 shows (routes st) (apiModules st) /\
    map resolved_part (map am_path (apiModules st)) = map r_path (routes st).
Proof.
  intros st Hni Hreg.
  destruct (buildCatalog_spec _ Hni) as (cats & Hb & Hnd & Hinv).
  exists (map snd cats). split; [assumption|]. split.
  { unfold api_info. now rewrite Hb. }
  split; [now apply catalog_paths_spec|].
  assert (Hpairs : forall R : Route -> ApiModule -> Prop,
            (forall load r m, classify load = Bound r m -> R r m) ->
            Forall2 R (routes st) (apiModules st)).
  { intros R HR. rewrite <- (filter_all registered (apiModules st) Hreg).
    subst st. rewrite loadModules_scan, scan_spec. simpl.
    now apply bound_pairs. }
  assert (Hshows : Forall2 shows (routes st) (apiModules st)).
  { apply Hpairs. intros load r m H. now apply (classify_records load). }
  split; [|split; [assumption|]].
  - apply Hpairs. intros load r m H. now apply (classify_records load).
  - clear -Hshows. induction Hshows as [|r m rs ms [Hr _] _ IH]; simpl;
      [reflexivity|now rewrite Hr, IH].
Qed.

(** The catalog groups by category key: with no inherited member among the
    keys, the modules recorded under a key all sit in one category, in
    recorded order, and no other category has that key. *)
Lemma catalog_groups_by_key entries m :
  (forall m', In m' entries -> inherited (category_key m') = false) ->
  In m entries ->
  exists categories c,
    buildCatalog entries = Ok categories /\
    In c categories /\
    c_items c = map item_of (filter (in_category (category_key m)) entries) /\
    (forall c', In c' categories ->
                to_string (c_name c') = category_key m -> c' = c).
Proof.
  intros Hni Hin.
  destruct (buildCatalog_spec _ Hni) as (cats & Hb & Hnd & Hinv).
  destruct (grouped_member entries m Hin) as (c & Hg & _).
  exists (map snd cats), c. split; [assumption|]. split; [|split].
  - rewrite <- Hinv in Hg. apply obj_get_In in Hg.
    now apply (in_map snd) in Hg.
  - now apply grouped_In in Hg.
  - intros c' Hc' Hkey. apply in_map_iff in Hc'.
    destruct Hc' as ([k c''] & Heq & Hin'). simpl in Heq. subst c''.
    apply (In_obj_get _ _ _ Hnd) in Hin'. rewrite Hinv in Hin'.
    pose proof (grouped_In _ _ _ Hin') as (_ & Hk & _).
    rewrite Hkey in Hk. subst k. congruence.
Qed.

(** C9 (as the code has it): unless a category names an inherited member,
    the build succeeds, and the entries with an unset category all sit in
    one category, the one kept under the key ["undefined"] that the unset
    value is coerced to; that category has the entries of that key in
    recorded order and the category value of the first of them as its name,
    so its name is unset when that entry's category is: no label is put in
    its place. *)
Theorem C9_unset_category_grouped (entries : list ApiModule) :
  (forall m, In m entries -> inherited (category_key m) = false) ->
  exists categories,
    buildCatalog entries = Ok categories /\
    forall m0 rest,
      filter (in_category "undefined") entries = m0 :: rest ->
      let c := mkCategory (am_category m0) (map item_of (m0 :: rest)) in
      In c categories /\
      (forall m, In m entries -> am_category m = VUndefined ->
                 In (item_of m) (c_items c)) /\
      (forall c', In c' categories ->
                  to_string (c_name c') = "undefined" -> c' = c) /\
      (am_category m0 = VUndefined -> c_name c = VUndefined).
Proof.
  intros Hni.
  destruct (buildCatalog_spec _ Hni) as (cats & Hb & Hnd & Hinv).
  exists (map snd cats). split; [assumption|].
  intros m0 rest Hf c.
  assert (Hg : grouped entries "undefined" = Some c).
  { unfold grouped. now rewrite Hf. }
  split; [|split; [|split]].
  - rewrite <- Hinv in Hg. apply obj_get_In in Hg.
    now apply (in_map snd) in Hg.
  - intros m Hin Hun. subst c. cbn [c_items]. rewrite <- Hf.
    apply in_map, filter_In. split; [assumption|].
    unfold in_category, category_key. now rewrite Hun.
  - intros c' Hc' Hkey. apply in_map_iff in Hc'.
    destruct Hc' as ([k c''] & Heq & Hin'). simpl in Heq. subst c''.
    apply (In_obj_get _ _ _ Hnd) in Hin'. rewrite Hinv in Hin'.
    pose proof (grouped_In _ _ _ Hin') as (_ & Hk & _).
    rewrite Hkey in Hk. subst k. congruence.
  - auto.
Qed.

(* ================================================================== *)
(** * More on binding *)
(* ================================================================== *)

Lemma lower_ascii_idem (a : ascii) : lower_ascii (lower_ascii a) = lower_ascii a.
Proof. destruct a as [[] [] [] [] [] [] [] []]; reflexivity. Qed.

Lemma toLowerCase_idem (s : string) : toLowerCase (toLowerCase s) = toLowerCase s.
Proof.
  induction s as [|a t IH]; simpl; [reflexivity|].
  now rewrite lower_ascii_idem, IH.
Qed.

Lemma bound_in_scan cs r :
  In r (flat_map bound_routes cs) ->
  exists load m, classify load = Bound r m.
Proof.
  intros H. apply in_flat_map in H. destruct H as ([filePath load] & _ & H).
  unfold bound_routes in H. cbn [snd] in H.
  destruct (classify load) as [r' m| |e|m|e] eqn:E; try contradiction.
  destruct H as [<-|[]]. eauto.
Qed.

(** A bound route is under [/api], at a path without ['?']. *)
Lemma bound_path load r m :
  classify load = Bound r m ->
  exists basePath,
    r_path r = ("/api" ++ basePath)%string /\
    includes question basePath = false.
Proof.
  intros H.
  destruct (classify_Bound _ _ _ H) as (module & _ & _ & Hd & _).
  destruct (describe_inv _ _ _ _ Hd)
    as (ps & p & mm & s & _ & _ & _ & _ & _ & _ & Hrp & _).
  destruct (split_on_first question p) as (h & t & rest & Hs & Hh & _).
  exists h. rewrite Hrp, Hs. auto.
Qed.

(** X1: every route of the table is registered under [/api], at a path
    without ['?'], by a registration method of the router whose name is in
    lower case, for a module with a valid format, whose entry point is a
    function. *)
Theorem routes_well_formed (dir : string) (entries : list fs_entry) (r : Route) :
  In r (routes (loadModules dir entries init)) ->
  (exists basePath,
     r_path r = ("/api" ++ basePath)%string /\
     includes question basePath = false) /\
  In (r_method r) verbs /\
  toLowerCase (r_method r) = r_method r /\
  exists meta onStart,
    get_prop (r_module r) "meta" = Ok meta /\ truthy meta = true /\
    get_prop (r_module r) "onStart" = Ok onStart /\
    typeof onStart = "function".
Proof.
  rewrite loadModules_scan, scan_spec. simpl. intros H.
  destruct (bound_in_scan _ _ H) as (load & m & Hc).
  split; [exact (bound_path _ _ _ Hc)|].
  destruct (classify_Bound _ _ _ Hc) as (module & _ & Hvalid & Hd & Hmod & Hv & _).
  destruct (describe_inv _ _ _ _ Hd)
    as (ps & p & mm & s & Hm & _ & _ & _ & _ & Hlow & _).
  split; [exact Hv|]. split; [rewrite Hlow; apply toLowerCase_idem|].
  rewrite Hmod.
  unfold invalid_format in Hvalid. rewrite Hm in Hvalid. simpl in Hvalid.
  destruct module as [| | | | |elems|ms|src]; try discriminate.
  exists (VObj ps), (match obj_get "onStart" ms with
                     | Some x => x | None => VUndefined end).
  simpl in Hvalid |- *.
  destruct (truthy (match obj_get "onStart" ms with
                    | Some x => x | None => VUndefined end)) eqn:T;
    simpl in Hvalid; [|discriminate].
  injection Hvalid as Hf. apply negb_false_iff, String.eqb_eq in Hf. auto.
Qed.

Lemma classify_describes load r m : classify load = Bound r m -> describes r m.
Proof.
  intros H.
  destruct (classify_Bound _ _ _ H) as (module & _ & _ & Hd & Hmod & _).
  destruct (describe_inv _ _ _ _ Hd)
    as (ps & p & mm & s & Hm & _ & Hmm & Hor & Hs & Hlow & _ & Hn & Hde & Hc
        & Ha & Hmeth & _).
  exists (VObj ps), mm, s. rewrite Hmod, Hor. auto 12.
Qed.

(** X2: the catalog entries recorded for registration methods of the router
    are in step with the routes: the entry at a position describes the route
    at that position.  When every entry was recorded for a registration
    method, these are all the entries. *)
Theorem catalog_describes_routes (dir : string) (entries : list fs_entry) :
  let st := loadModules dir entries init in
  Forall2 describes (routes st) (filter registered (apiModules st)) /\
  ((forall m, In m (apiModules st) -> registered m = true) ->
   Forall2 describes (routes st) (apiModules st)).
Proof.
  intros st.
  assert (H : Forall2 describes (routes st)
                      (filter registered (apiModules st))).
  { subst st. rewrite loadModules_scan, scan_spec. simpl.
    apply bound_pairs. exact classify_describes. }
  split; [exact H|]. intros Hreg.
  now rewrite (filter_all registered _ Hreg) in H.
Qed.

(** A unit with a valid format comes to a call exactly when its descriptor
    has one; otherwise reading the descriptor throws a [TypeError]. *)
Lemma describe_call_of module meta :
  get_prop module "meta" = Ok meta ->
  match describe module with
  | Ok (method, routePath, _) => call_of meta method routePath
  | Throw e =>
      (exists expr, e = TypeError expr) /\
      forall method routePath, ~ call_of meta method routePath
  end.
Proof.
  intros Hmeta.
  destruct (describe module) as [[[method routePath] m]|e] eqn:Hd.
  - destruct (describe_inv _ _ _ _ Hd)
      as (ps & p & mm & s & Hm & Hp & Hmm & Hor & _ & Hlow & Hrp & _).
    rewrite Hmeta in Hm. injection Hm as ->.
    exists p, mm. rewrite Hor. simpl. subst method. auto.
  - split.
    + unfold describe in Hd. rewrite Hmeta in Hd. cbn [rbind] in Hd.
      destruct meta as [| | | | |elems|ps|src]; simpl in Hd;
        try (injection Hd as <-; eauto; fail).
      destruct (obj_get "path" ps) as [[| | | |p| | |]|]; simpl in Hd;
        try (injection Hd as <-; eauto; fail).
      destruct (js_toLowerCase _) as [method|e'] eqn:Hl; simpl in Hd;
        [discriminate|].
      injection Hd as <-. unfold js_toLowerCase in Hl.
      destruct (js_or _ _); try discriminate; injection Hl as <-; eauto.
    + intros method routePath (p & mm & Hp & Hmm & Hlow & ->).
      destruct (describe_call module meta p mm method Hmeta Hp Hmm Hlow)
        as (m & Hm). congruence.
Qed.

(** X3: what becomes of a unit with a valid format.  When its descriptor
    comes to a call [app[method](routePath, ...)]: a registration method
    that accepts the path binds the route, with a catalog entry and a count;
    one that rejects the path leaves nothing but the error it threw, logged
    by [console.error]; another callable member of [app] that returns leaves
    a catalog entry and a count, but no route and no log line; a name with
    nothing to call is logged as a [TypeError].  When the descriptor comes
    to no call (its path is no string, or its method neither absent nor a
    string), the unit leaves nothing but a logged [TypeError]. *)
Theorem valid_unit_binds_or_fails
    (filePath : string) (module meta : jsval) (st : state) :
  invalid_format module = Ok false ->
  get_prop module "meta" = Ok meta ->
  let st' := load_candidate (filePath, LoadExports module) st in
  (forall method routePath,
     call_of meta method routePath ->
     (In method verbs -> path_error routePath = None ->
      routes st' = routes st ++ [mkRoute method routePath module] /\
      length (apiModules st') = S (length (apiModules st)) /\
      totalRoutes st' = S (totalRoutes st) /\
      console st' = console st) /\
     (In method verbs ->
      forall message,
        path_error routePath = Some message ->
        routes st' = routes st /\ apiModules st' = apiModules st /\
        totalRoutes st' = totalRoutes st /\
        console st' =
        console st ++ [ErrorLoading filePath (Thrown message)]) /\
     (~ In method verbs -> member method routePath = Returned ->
      routes st' = routes st /\
      length (apiModules st') = S (length (apiModules st)) /\
      totalRoutes st' = S (totalRoutes st) /\
      console st' = console st) /\
     (~ In method verbs -> member method routePath = NotCallable ->
      routes st' = routes st /\ apiModules st' = apiModules st /\
      totalRoutes st' = totalRoutes st /\
      console st' =
      console st ++ [ErrorLoading filePath (TypeError ("app." ++ method))])) /\
  ((forall method routePath, ~ call_of meta method routePath) ->
   routes st' = routes st /\ apiModules st' = apiModules st /\
   totalRoutes st' = totalRoutes st /\
   exists expr,
     console st' = console st ++ [ErrorLoading filePath (TypeError expr)]).
Proof.
  intros Hvalid Hmeta st'. subst st'.
  rewrite load_candidate_classify. cbn [fst snd].
  rewrite (classify_valid _ Hvalid).
  pose proof (describe_call_of module meta Hmeta) as Hd.
  destruct (describe module) as [[[method0 routePath0] m]|e].
  - split.
    + intros method routePath Hcall.
      assert (Heq : method = method0 /\ routePath = routePath0).
      { destruct Hcall as (p & mm & Hp & Hmm & Hlow & ->).
        destruct Hd as (p' & mm' & Hp' & Hmm' & Hlow' & ->).
        rewrite Hp in Hp'. injection Hp' as <-.
        rewrite Hmm in Hmm'. injection Hmm' as <-.
        rewrite Hlow in Hlow'. now injection Hlow' as <-. }
      destruct Heq as [<- <-]. unfold register.
      destruct (existsb (String.eqb method) verbs) eqn:Hv.
      * apply verb_In in Hv.
        split; [|split; [|split]]; try (intros Hnot; contradiction).
        -- intros _ ->. cbn [after routes apiModules totalRoutes console].
           rewrite length_app. simpl. repeat split; lia.
        -- intros _ message ->. simpl. auto.
      * assert (Hnot : ~ In method verbs).
        { intros Hin. apply verb_In in Hin. congruence. }
        split; [|split; [|split]]; try (intros Hin; contradiction).
        -- intros _ ->. cbn [after routes apiModules totalRoutes console].
           rewrite length_app. simpl. repeat split; lia.
        -- intros _ ->. simpl. auto.
    + intros Hno. exfalso. exact (Hno _ _ Hd).
  - destruct Hd as ((expr & ->) & Hno). split.
    + intros method routePath Hcall. exfalso. exact (Hno _ _ Hcall).
    + intros _. simpl. eauto 6.
Qed.

(* ================================================================== *)
(** * Which files are candidates *)
(* ================================================================== *)

Lemma last_dot_suffix_js (stem : string) :
  forall i acc,
    NodePath.last_dot (stem ++ ".js") i acc = Some (i + String.length stem).
Proof.
  induction stem as [|a t IH]; intros i acc; simpl.
  - now rewrite Nat.add_0_r.
  - rewrite IH. f_equal. lia.
Qed.

Lemma substring_past (stem rest : string) :
  substring (String.length stem) (String.length rest) (stem ++ rest) = rest.
Proof.
  induction stem as [|a t IH]; simpl; [|exact IH].
  induction rest as [|b r IHr]; simpl; [reflexivity|now rewrite IHr].
Qed.

Lemma length_append (a b : string) :
  String.length (a ++ b) = String.length a + String.length b.
Proof. induction a; simpl; auto. Qed.

Lemma last_dot_bound (s : string) :
  forall i acc j,
    NodePath.last_dot s i acc = Some j ->
    acc = Some j \/ (i <= j /\ j < i + String.length s).
Proof.
  induction s as [|a t IH]; intros i acc j; simpl; [auto|].
  intros H. apply IH in H. destruct H as [H|H]; [|right; lia].
  destruct (Ascii.eqb a "."%char); [|auto].
  injection H as <-. right. lia.
Qed.

Lemma substring_cut (s : string) :
  forall i, i <= String.length s ->
    s = (substring 0 i s ++ substring i (String.length s - i) s)%string.
Proof.
  induction s as [|a t IH]; intros i Hi; simpl in *.
  - destruct i; [reflexivity|lia].
  - destruct i as [|i]; simpl.
    + f_equal. clear. induction t as [|b r IHr]; simpl; [reflexivity|].
      now rewrite <- IHr.
    + f_equal. apply IH. lia.
Qed.

(** X4: a file of a listing is loaded exactly when its name is a non-empty
    stem followed by [.js]; a file named just [.js] is not.  A file with
    any other name leaves the globals as they are. *)
Theorem candidate_names (file : string) :
  (NodePath.extname file = ".js" <->
   exists stem, stem <> "" /\ file = (stem ++ ".js")%string) /\
  (forall dir load st,
     NodePath.extname file <> ".js" ->
     load_entry dir (FsFile file load) st = st).
Proof.
  split.
  - unfold NodePath.extname. split.
    + destruct (NodePath.last_dot file 0 None) as [i|] eqn:Hd; [|discriminate].
      destruct i as [|i]; [discriminate|].
      destruct (file =? ".."); [discriminate|]. intros Hsub.
      apply last_dot_bound in Hd. destruct Hd as [Hd|Hd]; [discriminate|].
      exists (substring 0 (S i) file). split.
      * destruct file; simpl in *; [lia|discriminate].
      * rewrite <- Hsub. apply substring_cut. lia.
    + intros (stem & Hne & ->).
      rewrite (last_dot_suffix_js stem 0 None). simpl plus.
      destruct stem as [|a t]; [contradiction|]. simpl String.length.
      assert (Hdd : (String a t ++ ".js" =? "..") = false).
      { apply String.eqb_neq. intros H.
        apply (f_equal String.length) in H. rewrite length_append in H.
        simpl in H. lia. }
      rewrite Hdd, length_append.
      match goal with
      | |- substring _ ?k _ = _ =>
          replace k with (String.length ".js") by (simpl; lia)
      end.
      apply (substring_past (String a t) ".js").
  - intros dir load st Hext. unfold load_entry. simpl. unfold load_file.
    apply String.eqb_neq in Hext. now rewrite Hext.
Qed.

(* ================================================================== *)
(** * More on the envelope *)
(* ================================================================== *)

(** X13: the creator put into a reply is the configured one when there is one
    (a truthy [apiSettings.creator]) and ["Created Using Rynn UI"]
    otherwise; it is never missing or empty. *)
Theorem creator_configured_or_default :
  settings <> VNull -> settings <> VUndefined ->
  exists creator,
    configured_creator = Ok creator /\ truthy creator = true /\
    (forall apiSettings v,
       get_prop settings "apiSettings" = Ok apiSettings ->
       get_prop apiSettings "creator" = Ok v -> truthy v = true ->
       creator = v) /\
    ((forall apiSettings v,
        get_prop settings "apiSettings" = Ok apiSettings ->
        get_prop apiSettings "creator" = Ok v -> truthy v = false) ->
     creator = VStr "Created Using Rynn UI").
Proof.
  intros Hn Hu. unfold configured_creator.
  destruct (get_prop settings "apiSettings") as [a|e] eqn:Ha.
  2:{ destruct settings; simpl in Ha; try discriminate; contradiction. }
  cbn [rbind].
  set (v := match a with
            | VObj ps => match obj_get "creator" ps with
                         | Some x => x | None => VUndefined end
            | _ => VUndefined
            end).
  assert (Hv : match a with
               | VUndefined | VNull => Ok VUndefined
               | _ => get_prop a "creator"
               end = Ok v) by (destruct a; reflexivity).
  assert (Huniq : forall v', get_prop a "creator" = Ok v' -> v' = v).
  { destruct a; simpl; intros v' H; try discriminate; now injection H. }
  assert (Hread : truthy v = true -> get_prop a "creator" = Ok v).
  { destruct a; simpl; try discriminate; reflexivity. }
  rewrite Hv. cbn [rbind]. clearbody v.
  exists (js_or v (VStr "Created Using Rynn UI")). split; [reflexivity|].
  unfold js_or. destruct (truthy v) eqn:T.
  - split; [exact T|]. split.
    + intros a' v' [= <-] Hv' _. symmetry. now apply Huniq.
    + intros Hall. specialize (Hall a v eq_refl (Hread eq_refl)). congruence.
  - split; [reflexivity|]. split; [|reflexivity].
    intros a' v' [= <-] Hv' Ht. apply Huniq in Hv'. congruence.
Qed.

(** X14: the patched [res.json] throws exactly when the settings document is
    [null] and the payload is an array or an object: reading
    [settings.apiSettings] is what fails. *)
Theorem res_json_throws_iff (data : jsval) :
  (exists e, res_json data = Throw e) <->
  (settings = VNull \/ settings = VUndefined) /\
  match data with VArr _ | VObj _ => True | _ => False end.
Proof.
  unfold res_json, configured_creator. split.
  - intros (e & H).
    destruct data; simpl in H; try discriminate;
      try (destruct (negb _); discriminate);
      try (destruct b; discriminate);
      (split; [|exact I]);
      destruct settings as [| | | | | |ps|]; simpl in H; auto; try discriminate;
      destruct (obj_get "apiSettings" ps) as [[]|]; simpl in H; discriminate.
  - intros [[->| ->] Hd]; destruct data; try contradiction; simpl; eauto.
Qed.

(* ================================================================== *)
(** * More on the catalog *)
(* ================================================================== *)

Lemma existsb_keys {A} (k : string) (o : props A) :
  existsb (String.eqb k) (map fst o) = obj_has k o.
Proof.
  unfold obj_has. induction o as [|[k0 v0] t IH]; simpl; [reflexivity|].
  destruct (k =? k0); simpl; auto.
Qed.

Lemma obj_set_keys {A} (k : string) (v : A) (o : props A) :
  array_index k = None ->
  map fst (obj_set k v o) =
  if obj_has k o then map fst o else map fst o ++ [k].
Proof.
  intros Hk. unfold obj_set. rewrite Hk.
  destruct (obj_has k o); [apply keys_replace|]. now rewrite map_app.
Qed.

Lemma group_step_keys categories m categories' :
  array_index (category_key m) = None ->
  group_step categories m = Ok categories' ->
  map fst categories' = first_use (map fst categories) m.
Proof.
  intros Hk. unfold group_step, categories_get, first_use.
  fold (category_key m). rewrite existsb_keys. unfold obj_has.
  destruct (obj_get (category_key m) categories) as [c|] eqn:G.
  - rewrite G. intros [= <-]. rewrite obj_set_keys by assumption.
    unfold obj_has. now rewrite G.
  - destruct (inherited (category_key m)); [rewrite G; discriminate|].
    rewrite obj_get_set_same. intros [= <-].
    rewrite !obj_set_keys by assumption. unfold obj_has.
    now rewrite obj_get_set_same, G.
Qed.

Lemma group_all_keys entries :
  forall categories categories',
    (forall m, In m entries -> array_index (category_key m) = None) ->
    group_all categories entries = Ok categories' ->
    map fst categories' = fold_left first_use entries (map fst categories).
Proof.
  induction entries as [|m rest IH]; intros categories categories' Hk; simpl.
  - now intros [= <-].
  - destruct (group_step categories m) as [c1|e] eqn:Hs; simpl; [|discriminate].
    intros Hg.
    rewrite (IH c1 categories' (fun m' Hm => Hk m' (or_intror Hm)) Hg).
    f_equal. apply group_step_keys; [apply Hk; now left|assumption].
Qed.

(** X10: when no category key is an array index (or names an inherited
    member), the categories of the catalog come in the order in which
    their keys are first used by the recorded modules. *)
Theorem categories_in_first_use_order (entries : list ApiModule) :
  (forall m, In m entries ->
             inherited (category_key m) = false /\
             array_index (category_key m) = None) ->
  exists categories,
    buildCatalog entries = Ok categories /\
    map (fun c => to_string (c_name c)) categories = keys_in_use_order entries.
Proof.
  intros H.
  destruct (group_all_spec entries [] [] (NoDup_nil _) (fun _ => eq_refl)
              (fun m Hm => proj1 (H m Hm))) as (cats & Hg & Hnd & Hinv).
  simpl in Hinv.
  exists (map snd cats). split.
  { unfold buildCatalog. now rewrite Hg. }
  pose proof (group_all_keys entries [] cats
                (fun m Hm => proj2 (H m Hm)) Hg) as Hkeys.
  unfold keys_in_use_order. simpl in Hkeys. rewrite <- Hkeys.
  assert (Hnames : forall k c, In (k, c) cats -> to_string (c_name c) = k).
  { intros k c Hin. apply (In_obj_get _ _ _ Hnd) in Hin.
    rewrite Hinv in Hin. now apply grouped_In in Hin. }
  clear -Hnames. induction cats as [|[k c] t IH]; simpl; [reflexivity|].
  rewrite (Hnames k c) by now left. f_equal. apply IH.
  intros k' c' Hin. apply Hnames. now right.
Qed.

Lemma all_items_replace k x categories c :
  obj_get k categories = Some c ->
  Permutation
    (all_items (obj_replace k (mkCategory (c_name c) (c_items c ++ [x]))
                            categories))
    (all_items categories ++ [x]).
Proof.
  unfold all_items.
  induction categories as [|[k0 c0] t IH]; simpl; [discriminate|].
  destruct (k =? k0).
  - intros [= ->]. simpl. rewrite <- !app_assoc.
    apply Permutation_app_head, Permutation_app_comm.
  - intros H. simpl. rewrite <- app_assoc.
    now apply Permutation_app_head, IH.
Qed.

Lemma all_items_insert_index n k c categories :
  Permutation (all_items (obj_insert_index n k c categories))
              (c_items c ++ all_items categories).
Proof.
  unfold all_items.
  induction categories as [|[k0 c0] t IH]; simpl; [reflexivity|].
  destruct (array_index k0) as [n'|]; [destruct (n' <? n)%N|]; simpl;
    try reflexivity.
  rewrite IH, !app_assoc. apply Permutation_app_tail, Permutation_app_comm.
Qed.

Lemma all_items_new k name categories :
  obj_get k categories = None ->
  Permutation (all_items (obj_set k (mkCategory name []) categories))
              (all_items categories).
Proof.
  intros G. unfold obj_set, obj_has. rewrite G.
  destruct (array_index k).
  - apply (all_items_insert_index _ _ (mkCategory name [])).
  - unfold all_items. rewrite flat_map_app. simpl. now rewrite app_nil_r.
Qed.

Lemma all_items_set_existing k x categories c :
  obj_get k categories = Some c ->
  Permutation
    (all_items (obj_set k (mkCategory (c_name c) (c_items c ++ [x]))
                        categories))
    (all_items categories ++ [x]).
Proof.
  intros G. unfold obj_set, obj_has. rewrite G. now apply all_items_replace.
Qed.

Lemma group_step_items categories m categories' :
  group_step categories m = Ok categories' ->
  Permutation (all_items categories') (all_items categories ++ [item_of m]).
Proof.
  unfold group_step, categories_get. fold (category_key m).
  destruct (obj_get (category_key m) categories) as [c|] eqn:G.
  - rewrite G. intros [= <-]. now apply all_items_set_existing.
  - destruct (inherited (category_key m)); [rewrite G; discriminate|].
    rewrite obj_get_set_same. intros [= <-].
    etransitivity;
      [apply (all_items_set_existing _ _ _ (mkCategory (am_category m) [])),
             obj_get_set_same|].
    now apply Permutation_app_tail, all_items_new.
Qed.

Lemma group_all_items entries :
  forall categories categories',
    group_all categories entries = Ok categories' ->
    Permutation (all_items categories')
                (all_items categories ++ map item_of entries).
Proof.
  induction entries as [|m rest IH]; intros categories categories'; simpl.
  - intros [= <-]. now rewrite app_nil_r.
  - destruct (group_step categories m) as [c1|e] eqn:Hs; simpl; [|discriminate].
    intros Hg. rewrite (IH _ _ Hg), (group_step_items _ _ _ Hs).
    now rewrite <- app_assoc.
Qed.

(** X11: whenever the catalog is built, it lists every recorded module exactly
    once: its items, over all categories, are the recorded modules up to
    order. *)
Theorem catalog_lists_each_module_once
    (entries : list ApiModule) (categories : list CatalogCategory) :
  buildCatalog entries = Ok categories ->
  Permutation (flat_map c_items categories) (map item_of entries).
Proof.
  unfold buildCatalog.
  destruct (group_all [] entries) as [cats|e] eqn:Hg; [|discriminate].
  simpl. intros [= <-].
  rewrite <- (group_all_items _ _ _ Hg : Permutation (all_items cats) _).
  unfold all_items. now rewrite flat_map_concat_map, map_map,
    <- flat_map_concat_map.
Qed.

(** X12: [GET /api/info] replies exactly when the settings document is not
    [null] and no recorded category names an inherited member; its reply is
    then the categories in their envelope, with status 200 and the
    creator. *)
Theorem api_info_reply (st : state) :
  ((exists v, api_info st = Ok v) <->
   settings <> VNull /\ settings <> VUndefined /\
   forall m, In m (apiModules st) -> inherited (category_key m) = false) /\
  (forall v,
     api_info st = Ok v ->
     exists creator categories,
       configured_creator = Ok creator /\
       buildCatalog (apiModules st) = Ok categories /\
       v = VObj [("status", VNum 200); ("creator", creator);
                 ("categories", VArr (map category_json categories))]).
Proof.
  assert (Hshape : forall v,
    api_info st = Ok v ->
    exists creator categories,
      configured_creator = Ok creator /\
      buildCatalog (apiModules st) = Ok categories /\
      v = VObj [("status", VNum 200); ("creator", creator);
                ("categories", VArr (map category_json categories))]).
  { intros v. unfold api_info.
    destruct (buildCatalog (apiModules st)) as [cats|e]; [|discriminate].
    cbn [rbind]. unfold res_json. simpl.
    destruct configured_creator as [c|e]; [|discriminate].
    simpl. intros [= <-]. eauto. }
  split; [|exact Hshape]. split.
  - intros (v & Hv). destruct (Hshape v Hv) as (c & cats & Hc & Hb & _).
    split; [|split].
    + intros Hs. unfold configured_creator in Hc. rewrite Hs in Hc.
      discriminate.
    + intros Hs. unfold configured_creator in Hc. rewrite Hs in Hc.
      discriminate.
    + intros m Hm. destruct (inherited (category_key m)) eqn:E; [|reflexivity].
      destruct (buildCatalog_inherited _ _ Hm E) as (e & He). congruence.
  - intros (Hn & Hu & Hni).
    destruct (buildCatalog_spec _ Hni) as (cats & Hb & _).
    unfold api_info. rewrite Hb. cbn [rbind].
    destruct (res_json (VObj [("categories",
                VArr (map category_json (map snd cats)))])) as [v|e] eqn:Hr;
      [eauto|].
    assert (Ht : exists e, res_json (VObj [("categories",
                VArr (map category_json (map snd cats)))]) = Throw e) by eauto.
    apply res_json_throws_iff in Ht. destruct Ht as [[Ht|Ht] _]; contradiction.
Qed.

(* ================================================================== *)
(** * Plugin routes and the paths of the host *)
(* ================================================================== *)

(** X9: of the paths the host registers itself, a plugin route can only take
    [/api/info]: [/settings.json] and the pages are never the path of a
    plugin route. *)
Theorem plugin_route_on_builtin_path
    (dir : string) (entries : list fs_entry) (r : Route) :
  In r (routes (loadModules dir entries init)) ->
  In (r_path r) builtin_paths ->
  r_path r = "/api/info".
Proof.
  rewrite loadModules_scan, scan_spec. simpl. intros Hin Hb.
  destruct (bound_in_scan _ _ Hin) as (load & m & Hc).
  destruct (bound_path _ _ _ Hc) as (base & Hp & _).
  rewrite Hp in *. simpl in Hb.
  destruct Hb as [H|[H|[H|[H|[H|[]]]]]]; [now symmetry|discriminate..].
Qed.

(* ================================================================== *)
(** * The path a catalog entry shows *)
(* ================================================================== *)

(** X8: the catalog shows the descriptor's path in full, under [/api], when
    the path has at most one ['?']; of a path with more, it shows what
    precedes the second ['?'].  The route is bound at what precedes the
    first. *)
Theorem catalog_path_of_descriptor
    (module meta : jsval) (p : string) (r : Route) (m : ApiModule) :
  get_prop module "meta" = Ok meta ->
  get_prop meta "path" = Ok (VStr p) ->
  classify (LoadExports module) = Bound r m ->
  (includes question p = false ->
   r_path r = ("/api" ++ p)%string /\ am_path m = ("/api" ++ p)%string) /\
  (forall a b,
     p = (a ++ String question b)%string ->
     includes question a = false -> includes question b = false ->
     r_path r = ("/api" ++ a)%string /\ am_path m = ("/api" ++ p)%string) /\
  (forall a b c,
     p = (a ++ String question (b ++ String question c))%string ->
     includes question a = false -> includes question b = false ->
     r_path r = ("/api" ++ a)%string /\
     am_path m = ("/api" ++ a ++ String question b)%string).
Proof.
  intros Hmeta Hpath Hc.
  destruct (classify_Bound _ _ _ Hc) as (module' & [= <-] & _ & Hd & _).
  destruct (describe_inv _ _ _ _ Hd)
    as (ps & p' & mm & s & Hm & Hp' & _ & _ & _ & _ & Hrp & _ & _ & _ & _ & _
        & Hap).
  rewrite Hmeta in Hm. injection Hm as ->.
  rewrite Hpath in Hp'. injection Hp' as <-.
  rewrite Hrp in Hap.
  split; [|split].
  - intros Hno. rewrite Hap, Hrp, Hno, (split_on_whole _ _ Hno). simpl hd.
    now rewrite append_empty_r.
  - intros a b -> Ha Hb.
    rewrite Hap, Hrp, includes_before, (split_on_before _ _ _ Ha),
      (split_on_whole _ _ Hb). simpl hd. simpl nth.
    split; [reflexivity|]. now rewrite append_assoc.
  - intros a b c -> Ha Hb.
    rewrite Hap, Hrp, includes_before, (split_on_before _ _ _ Ha),
      (split_on_before _ _ _ Hb). simpl hd. simpl nth.
    split; [reflexivity|]. now rewrite append_assoc.
Qed.

(* ================================================================== *)
(** * How scans compose *)
(* ================================================================== *)

Lemma reached_no_abort cs c : In c (reached cs) -> aborts c = false.
Proof.
  induction cs as [|c0 cs IH]; simpl; [tauto|].
  destruct (aborts c0) eqn:E; simpl; [tauto|]. intros [<-|H]; auto.
Qed.

Lemma reached_length cs : length (reached cs) <= length cs.
Proof.
  induction cs as [|c0 cs IH]; simpl; [lia|].
  destruct (aborts c0); simpl; lia.
Qed.

Lemma scan_end_reached cs : scan_end cs = Ok tt -> reached cs = cs.
Proof.
  induction cs as [|c0 cs IH]; simpl; [reflexivity|].
  unfold aborts.
  destruct (classify (snd c0)); try discriminate; intros H; f_equal; auto.
Qed.

(** X6: the scan only ever appends: the routes, the catalog entries and the
    log it starts from are kept, in place, in front of what it adds, and the
    count grows by the number of catalog entries added.  There are at most
    as many new routes as new entries (as many, when every new entry was
    recorded for a registration method of the router), and at most as many
    new entries and log lines as candidates: as many, when the scan runs to
    its end. *)
Theorem scan_appends_only (dir : string) (entries : list fs_entry) (st : state) :
  exists new_routes new_modules new_lines,
    routes (loadModules dir entries st) = routes st ++ new_routes /\
    apiModules (loadModules dir entries st) = apiModules st ++ new_modules /\
    console (loadModules dir entries st) = console st ++ new_lines /\
    totalRoutes (loadModules dir entries st) =
    totalRoutes st + length new_modules /\
    length new_routes <= length new_modules /\
    ((forall m, In m new_modules -> registered m = true) ->
     length new_routes = length new_modules) /\
    length new_modules + length new_lines <= length (candidates dir entries) /\
    (fst (loadModules_stmt dir entries st) = Ok tt ->
     length new_modules + length new_lines = length (candidates dir entries)).
Proof.
  rewrite loadModules_stmt_scan, loadModules_scan, scan_stmt_spec, scan_spec.
  cbn [fst routes apiModules totalRoutes console].
  eexists _, _, _. repeat (split; [reflexivity|]).
  set (cs := candidates dir entries).
  pose proof (outcomes_length (reached cs)) as Hall.
  rewrite (filter_none aborts (reached cs) (reached_no_abort cs)) in Hall.
  pose proof (reached_length cs) as Hlen.
  rewrite bound_routes_length, bound_modules_length, diagnostics_length.
  simpl in Hall.
  split; [lia|]. split; [|split; [lia|]].
  - intros Hreg. rewrite <- bound_modules_length, <- bound_routes_length.
    rewrite <- (filter_all registered _ Hreg).
    apply (Forall2_length (bound_pairs (fun _ _ => True)
                             (fun _ _ _ _ => I) (reached cs))).
  - intros Hend. rewrite (scan_end_reached _ Hend) in *. lia.
Qed.

Lemma candidate_paths_entry (e : fs_entry) :
  forall dir c,
    In c (candidates_entry dir e) ->
    (exists rest, fst c = (dir ++ "/" ++ rest)%string) /\
    (exists stem, fst c = (stem ++ ".js")%string).
Proof.
  induction e as [file load|file entries IH] using fs_entry_tree_ind;
    intros dir c; simpl.
  - destruct (NodePath.extname file =? ".js") eqn:E; [|intros []].
    intros [<-|[]]. simpl. unfold NodePath.join.
    split; [now exists file|].
    apply String.eqb_eq, (proj1 (candidate_names file)) in E.
    destruct E as (stem & _ & ->). exists (dir ++ "/" ++ stem)%string.
    exact (eq_sym (append_assoc dir ("/" ++ stem) ".js")).
  - intros H. apply in_flat_map in H. destruct H as (e & He & Hc).
    rewrite Forall_forall in IH.
    destruct (IH e He _ _ Hc) as ((rest & Hr) & Hs). split; [|exact Hs].
    exists (file ++ "/" ++ rest)%string. rewrite Hr. unfold NodePath.join.
    exact (append_assoc dir ("/" ++ file) ("/" ++ rest)).
Qed.

(** X7: every line of the log of a scan names a candidate of the tree that was
    not bound: a file named [*.js] below the scanned directory. *)
Theorem diagnostics_name_candidates
    (dir : string) (entries : list fs_entry) (l : log_line) :
  In l (console (loadModules dir entries init)) ->
  (exists load,
     In (line_path l, load) (candidates dir entries) /\
     binds (line_path l, load) = false) /\
  (exists rest, line_path l = (dir ++ "/" ++ rest)%string) /\
  (exists stem, line_path l = (stem ++ ".js")%string).
Proof.
  rewrite loadModules_scan, scan_spec. simpl. intros H.
  apply in_flat_map in H. destruct H as ([filePath load] & Hc & Hl).
  assert (Hpath : line_path l = filePath /\ binds (filePath, load) = false).
  { unfold diagnostics, binds in *. simpl in *.
    destruct (classify load); try contradiction;
      destruct Hl as [<-|[]]; auto. }
  destruct Hpath as (-> & Hb). apply reached_incl in Hc.
  split; [eauto|].
  unfold candidates in Hc. apply in_flat_map in Hc.
  destruct Hc as (e & _ & Hc).
  exact (candidate_paths_entry e dir _ Hc).
Qed.

(* ================================================================== *)
(** * The layout of a reply *)
(* ================================================================== *)

Lemma obj_get_keys_None {A} k (o : props A) :
  ~ In k (map fst o) -> obj_get k o = None.
Proof.
  induction o as [|[k0 v0] t IH]; simpl; [reflexivity|].
  intros H. destruct (String.eqb_spec k k0) as [->|Hne];
    [exfalso; apply H; now left|].
  apply IH. intros Hin. apply H. now right.
Qed.

(** Spreading a payload without index keys into an object under
    construction: the keys the object has keep their places and take the
    payload's values, the other keys of the payload follow in the payload's
    order. *)
Lemma spread_layout (P : props jsval) :
  forall target,
    NoDup (map fst P) -> NoDup (map fst target) ->
    (forall k, In k (map fst P) -> array_index k = None) ->
    fold_left (fun o kv => obj_set (fst kv) (snd kv) o) P target =
    map (fun kv => (fst kv, own_or P (fst kv) (snd kv))) target ++
    filter (fun kv => negb (obj_has (fst kv) target)) P.
Proof.
  unfold own_or.
  induction P as [|[k v] P' IH]; intros target HndP Hnd Hidx; simpl.
  - rewrite app_nil_r. induction target as [|[k0 v0] t IHt]; simpl;
      [reflexivity|].
    inversion Hnd; subst. now rewrite <- IHt.
  - inversion HndP as [|? ? Hk HndP']; subst.
    assert (Hidx' : forall k', In k' (map fst P') -> array_index k' = None)
      by (intros k' H'; apply Hidx; now right).
    assert (HkP' : obj_get k P' = None) by now apply obj_get_keys_None.
    rewrite IH; [|assumption|now apply obj_set_NoDup|assumption].
    unfold obj_set at 1 2. rewrite (Hidx k) by now left.
    destruct (obj_has k target) eqn:Hhas; simpl.
    + f_equal.
      * clear IH. induction target as [|[k0 v0] t IHt]; simpl;
          [reflexivity|].
        inversion Hnd as [|? ? Hk0 Hnd']; subst. unfold obj_has in Hhas.
        simpl in Hhas.
        destruct (String.eqb_spec k k0) as [->|Hne]; simpl.
        -- rewrite String.eqb_refl, HkP'. f_equal.
           apply map_ext_in. intros [k1 v1] Hin. simpl.
           destruct (String.eqb_spec k1 k0) as [->|_]; [|reflexivity].
           exfalso. apply Hk0. now apply (in_map fst) in Hin.
        -- destruct (String.eqb_spec k0 k) as [Heq|_]; [congruence|].
           f_equal. apply IHt; assumption.
      * apply filter_ext. intros [k1 v1]. simpl. f_equal.
        unfold obj_has.
        destruct (String.eqb_spec k1 k) as [->|Hne].
        -- rewrite obj_get_replace_same by assumption.
           unfold obj_has in Hhas. now destruct (obj_get k target).
        -- now rewrite obj_get_replace_other.
    + rewrite map_app. simpl. rewrite HkP', <- app_assoc.
      simpl. f_equal.
      * apply map_ext_in. intros [k1 v1] Hin. simpl.
        destruct (String.eqb_spec k1 k) as [->|_]; [|reflexivity].
        exfalso. apply (in_map fst) in Hin. simpl in Hin.
        apply obj_get_None_keys in Hin; [assumption|].
        unfold obj_has in Hhas. now destruct (obj_get k target).
      * f_equal. apply filter_ext_in. intros [k1 v1] Hin. simpl. f_equal.
        unfold obj_has. rewrite obj_get_app.
        destruct (obj_get k1 target); [reflexivity|]. simpl.
        destruct (String.eqb_spec k1 k) as [->|_]; [|reflexivity].
        exfalso. apply Hk. now apply (in_map fst) in Hin.
Qed.

(** X15: the reply for an object payload without index keys, as it is
    serialised: [status] first (the payload's own, or 200), [creator]
    second (the payload's own, or the configured one), then the other
    properties of the payload in the payload's order. *)
Theorem reply_layout (P : props jsval) (creator : jsval) :
  NoDup (map fst P) ->
  (forall k, In k (map fst P) -> array_index k = None) ->
  configured_creator = Ok creator ->
  res_json (VObj P) =
  Ok (VObj (("status", own_or P "status" (VNum 200)) ::
            ("creator", own_or P "creator" creator) ::
            filter other_key P)).
Proof.
  intros Hnd Hidx Hc.
  destruct (res_json_wraps (VObj P) creator eq_refl Hc) as (status & Hs & ->).
  unfold spread_into. simpl own_entries.
  rewrite spread_layout; [|assumption| |assumption].
  2:{ simpl. apply NoDup_cons; [intros [H|[]]; discriminate H|].
      apply NoDup_cons; [intros []|apply NoDup_nil]. }
  cbn [map fst snd app]. simpl in Hs. injection Hs as <-.
  unfold own_or. do 2 f_equal.
  assert (Hf : filter (fun kv : string * jsval =>
                 negb (obj_has (fst kv)
                   [("status",
                     js_or match obj_get "status" P with
                           | Some x => x | None => VUndefined end (VNum 200));
                    ("creator", creator)])) P = filter other_key P).
  { apply filter_ext. intros [k v]. unfold other_key, obj_has. simpl.
    destruct (k =? "status"); [reflexivity|].
    destruct (k =? "creator"); reflexivity. }
  rewrite Hf. destruct (obj_get "status" P); reflexivity.
Qed.

End Host.

(* ================================================================== *)
(** * The properties on the example tree *)
(* ================================================================== *)

(** C1 (where the code breaks it): the array [[1, 2]] is not sent as it
    is: it passes the [typeof data === 'object'] test, so its elements are
    spread into an object under their indices, with [status] and [creator]
    added.  No array is ever sent unmodified, whatever the settings, while
    every payload that is neither an array nor an object is. *)
Theorem C1_array_payload_is_wrapped :
  res_json Example.settings (VArr [VNum 1; VNum 2]) =
  Ok (VObj [("0", VNum 1); ("1", VNum 2); ("status", VNum 200);
            ("creator", VStr "Rynn")]) /\
  (forall settings elems, res_json settings (VArr elems) <> Ok (VArr elems)) /\
  (forall settings data,
     match data with VArr _ | VObj _ => False | _ => True end ->
     res_json settings data = Ok data).
Proof.
  split; [reflexivity|]. split.
  - intros settings elems. apply res_json_non_object.
  - intros settings data. apply res_json_non_object.
Qed.

(** The envelope on the reply of the [echo] unit of the scenario. *)
Lemma C2_witness :
  NoDup (map fst [("status", VNum 201); ("x", VNum 1)]) /\
  configured_creator Example.settings = Ok (VStr "Rynn") /\
  exists R,
    res_json Example.settings (VObj [("status", VNum 201); ("x", VNum 1)]) =
    Ok (VObj R) /\
    obj_get "status" R = Some (VNum 201) /\
    obj_get "creator" R = Some (VStr "Rynn") /\
    obj_get "x" R = Some (VNum 1).
Proof.
  assert (Hnd : NoDup (map fst [("status", VNum 201); ("x", VNum 1)])).
  { repeat constructor; simpl; intuition discriminate. }
  split; [exact Hnd|]. split; [reflexivity|].
  destruct (C2_object_payload_merged Example.settings
              [("status", VNum 201); ("x", VNum 1)] (VStr "Rynn") Hnd eq_refl)
    as (R & Hr & _ & Hget & _).
  exists R. split; [exact Hr|]. now rewrite !Hget.
Defined.

(** The unit without an entry point is skipped with a warning. *)
Lemma C3_witness :
  let st' := load_candidate Example.verbs Example.path_error Example.member
               ("/app/api/tools/draft.js", LoadExports Example.no_handler) init in
  absent (unit_member Example.no_handler "onStart") /\
  console st' = [WarnSkipped "/app/api/tools/draft.js"] /\
  routes st' = [] /\ apiModules st' = [] /\ totalRoutes st' = 0.
Proof.
  assert (Habs : absent (unit_member Example.no_handler "onStart"))
    by reflexivity.
  destruct (C3_invalid_unit_skipped Example.verbs Example.path_error
              Example.member "/app/api/tools/draft.js" Example.no_handler init)
    as (Hwarn & _ & Hskip).
  split; [exact Habs|]. split.
  - apply Hwarn; [discriminate|discriminate|]. right. left. exact Habs.
  - destruct Hskip as (Hr & Hm & Ht & _); [right; left; exact Habs|].
    repeat split; assumption.
Defined.

(** C3 (the sentence of the specification, on the code): a unit whose
    exports are [null] has no metadata, yet it is not skipped with the
    warning for invalid units: reading its metadata throws, and the [catch]
    block reports a load error. *)
Lemma C3_counterexample :
  (let st' := load_candidate Example.verbs Example.path_error Example.member
                ("/app/api/null.js", LoadExports VNull) init in
   absent (unit_member VNull "meta") /\
   console st' =
   [ErrorLoading "/app/api/null.js" (TypeError "reading 'meta'")]) /\
  ~ invalid_iff_warned Example.verbs Example.path_error Example.member.
Proof.
  split; [split; reflexivity|].
  intros H.
  assert (Hlog : console (load_candidate Example.verbs Example.path_error
                            Example.member
                            ("/app/api/null.js", LoadExports VNull) init) =
                 console init ++ [WarnSkipped "/app/api/null.js"]).
  { apply (H "/app/api/null.js" VNull init). left. reflexivity. }
  discriminate Hlog.
Qed.

(** C4 (where the code breaks it): a unit that throws [null] while it is
    loaded is caught, but the [catch] block reads [error.message] of what
    it caught and throws in turn: nothing is logged, the throw leaves
    [loadModules], and the valid unit listed after it is never loaded.  So
    of these two candidates, one of which throws, none is bound and none
    is reported.  The same happens wherever a unit throws [null] or
    [undefined] in a listing.  Besides, a valid unit whose method is [set]
    is counted and listed, with no route bound and nothing logged. *)
Theorem C4_isolation :
  candidates Example.root Example.with_throw_null =
  [("/app/api/first.js", LoadThrowsValue VNull);
   ("/app/api/ping.js", LoadExports Example.ping)] /\
  loadModules_stmt Example.verbs Example.path_error Example.member
                   Example.root Example.with_throw_null init =
  (Throw (TypeError "reading 'message'"), init) /\
  routes (loadModules Example.verbs Example.path_error Example.member
                      Example.root
                      [FsFile "ping.js" (LoadExports Example.ping)] init) =
  [mkRoute "get" "/api/ping" Example.ping] /\
  (forall verbs path_error member dir file value pre post st0,
     NodePath.extname file = ".js" ->
     value = VNull \/ value = VUndefined ->
     fst (loadModules_stmt verbs path_error member dir pre st0) = Ok tt ->
     loadModules_stmt verbs path_error member dir
                      (pre ++ FsFile file (LoadThrowsValue value) :: post) st0 =
     (Throw (TypeError "reading 'message'"),
      loadModules verbs path_error member dir pre st0)) /\
  (let st := loadModules Example.verbs Example.path_error Example.member
                         Example.root
                         [FsFile "setter.js" (LoadExports Example.setter)]
                         init in
   routes st = [] /\ console st = [] /\ totalRoutes st = 1 /\
   map am_path (apiModules st) = ["/api/x"]).
Proof.
  split; [reflexivity|]. split; [reflexivity|]. split; [reflexivity|].
  split; [|repeat split; reflexivity].
  intros verbs path_error member dir file value pre post st0 Hext Hv Hpre.
  apply scan_stops; [assumption|assumption|].
  destruct Hv as [-> | ->]; reflexivity.
Qed.

(** Where the isolation holds: five candidates, three of them invalid or
    throwing an error. *)
Example isolation_on_the_tree :
  length (candidates Example.root Example.tree) = 5 /\
  length (filter (diagnosed Example.verbs Example.path_error Example.member)
                 (candidates Example.root Example.tree)) = 3 /\
  let st := loadModules Example.verbs Example.path_error Example.member
                        Example.root Example.tree init in
  length (routes st) = 2 /\ totalRoutes st = 2 /\ length (console st) = 3.
Proof.
  split; [reflexivity|]. split; [reflexivity|].
  assert (Hab : forall c, In c (candidates Example.root Example.tree) ->
                          aborts Example.verbs Example.path_error
                                 Example.member c = false).
  { intros c [<-|[<-|[<-|[<-|[<-|[]]]]]]; reflexivity. }
  assert (Hli : forall c, In c (candidates Example.root Example.tree) ->
                          lists Example.verbs Example.path_error
                                Example.member c = false).
  { intros c [<-|[<-|[<-|[<-|[<-|[]]]]]]; reflexivity. }
  destruct (scan_isolation Example.verbs Example.path_error Example.member
              Example.root Example.tree 5 3 Hab Hli eq_refl eq_refl)
    as (_ & H1 & H2 & H3 & _).
  repeat split; assumption.
Qed.



(** The second of two units bound to [GET /api/ping]. *)
Lemma C6_witness :
  let st := load_candidate Example.verbs Example.path_error Example.member
              ("/app/api/ping.js", LoadExports Example.ping) init in
  let r := mkRoute "get" "/api/ping" Example.ping in
  In r (routes st) /\
  let st' := load_candidate Example.verbs Example.path_error Example.member
               ("/app/api/ping2.js", LoadExports Example.ping) st in
  routes st' = [r; r] /\ totalRoutes st' = 2 /\ console st' = [].
Proof.
  split; [now left|].
  destruct (C6_no_conflict_check Example.verbs Example.path_error
              Example.member "/app/api/ping2.js"
              (LoadExports Example.ping)
              (mkRoute "get" "/api/ping" Example.ping)
              (mkRoute "get" "/api/ping" Example.ping)
              (mkApiModule (VStr "Ping") VUndefined (VStr "util") "/api/ping"
                           VUndefined (VStr "get"))
              (load_candidate Example.verbs Example.path_error Example.member
                 ("/app/api/ping.js", LoadExports Example.ping) init)
              eq_refl (or_introl eq_refl) eq_refl eq_refl)
    as (Hr & _ & Ht & Hc & _).
  repeat split; assumption.
Defined.

(** C6 (the sentence of the specification, on the code): two units bound
    to [GET /api/ping] are both registered and both counted, and nothing is
    logged; the binder rejects no conflict. *)
Lemma C6_counterexample :
  (let st := loadModules Example.verbs Example.path_error Example.member
                         Example.root Example.twice init in
   map r_method (routes st) = ["get"; "get"] /\
   map r_path (routes st) = ["/api/ping"; "/api/ping"] /\
   totalRoutes st = 2 /\ console st = []) /\
  ~ conflict_rejected Example.verbs Example.path_error Example.member.
Proof.
  split; [repeat split; reflexivity|].
  intros H.
  destruct (H "/app/api/ping2.js" (LoadExports Example.ping)
              (mkRoute "get" "/api/ping" Example.ping)
              (mkApiModule (VStr "Ping") VUndefined (VStr "util") "/api/ping"
                           VUndefined (VStr "get"))
              (mkRoute "get" "/api/ping" Example.ping)
              (load_candidate Example.verbs Example.path_error Example.member
                 ("/app/api/ping.js", LoadExports Example.ping) init)
              eq_refl (or_introl eq_refl) eq_refl eq_refl)
    as (Hr & _).
  discriminate Hr.
Qed.

(** The catalog of a tree with a unit whose path carries a query text. *)
Lemma C7_witness :
  let st := loadModules Example.verbs Example.path_error Example.member
                        Example.root Example.with_query init in
  (forall m, In m (apiModules st) -> inherited (category_key m) = false) /\
  (forall m, In m (apiModules st) -> registered Example.verbs m = true) /\
  exists categories,
    buildCatalog (apiModules st) = Ok categories /\
    (forall p, In p (catalog_paths categories) <-> In p ["/api/search?q="]) /\
    Forall2 records (routes st) (apiModules st) /\
    map r_path (routes st) = ["/api/search"].
Proof.
  assert (Hni : forall m,
    In m (apiModules (loadModules Example.verbs Example.path_error
                        Example.member Example.root Example.with_query init)) ->
    inherited (category_key m) = false).
  { intros m [<-|[]]; reflexivity. }
  assert (Hreg : forall m,
    In m (apiModules (loadModules Example.verbs Example.path_error
                        Example.member Example.root Example.with_query init)) ->
    registered Example.verbs m = true).
  { intros m [<-|[]]; reflexivity. }
  split; [exact Hni|]. split; [exact Hreg|].
  destruct (C7_catalog_paths Example.verbs Example.path_error Example.member
              Example.settings Example.root Example.with_query Hni Hreg)
    as (categories & Hb & _ & Hp & Hrec & _ & Hr).
  exists categories. split; [exact Hb|]. split; [exact Hp|].
  split; [exact Hrec|]. now rewrite <- Hr.
Defined.

(** C7 (the sentence of the specification, on the code): the catalog of a
    unit whose path is ["/search?q="] shows ["/api/search?q="], while the
    route is bound at ["/api/search"]. *)
Lemma C7_counterexample :
  (let st := loadModules Example.verbs Example.path_error Example.member
                         Example.root Example.with_query init in
   buildCatalog (apiModules st) =
   Ok [mkCategory (VStr "tools")
         [mkItem (VStr "Search") VUndefined "/api/search?q=" VUndefined
                 (VStr "GET")]] /\
   map r_path (routes st) = ["/api/search"]) /\
  ~ catalog_shows_resolved_paths Example.verbs Example.path_error
                                 Example.member.
Proof.
  split; [split; reflexivity|].
  intros H.
  specialize (H Example.root Example.with_query _ eq_refl "/api/search?q=").
  simpl in H. destruct H as [H _].
  destruct (H (or_introl eq_refl)) as [Heq|[]]. discriminate Heq.
Qed.

(** C8 (where the code breaks it): two bound units share the category
    ["constructor"]; the handler of [GET /api/info] finds the inherited
    member of that name on its [categories] object, creates no category, and
    throws on [items.push], so no catalog is returned.  The same happens for
    every category that names an inherited member. *)
Theorem C8_inherited_category_breaks_catalog :
  (let st := loadModules Example.verbs Example.path_error Example.member
                         Example.root Example.with_constructor init in
   map am_category (apiModules st) = [VStr "constructor"; VStr "constructor"] /\
   totalRoutes st = 2 /\
   buildCatalog (apiModules st) =
   Throw (TypeError "categories[constructor].items.push") /\
   api_info Example.settings st =
   Throw (TypeError "categories[constructor].items.push")) /\
  (forall entries m,
     In m entries -> inherited (category_key m) = true ->
     exists e, buildCatalog entries = Throw e).
Proof.
  split; [repeat split; reflexivity|].
  intros entries m. apply buildCatalog_inherited.
Qed.

(** The catalog of one entry without a category. *)
Lemma C9_witness :
  (forall m, In m [Example.unset_entry] -> inherited (category_key m) = false) /\
  exists categories,
    buildCatalog [Example.unset_entry] = Ok categories /\
    In (mkCategory VUndefined [item_of Example.unset_entry]) categories /\
    (forall c', In c' categories -> to_string (c_name c') = "undefined" ->
                c_name c' = VUndefined).
Proof.
  assert (Hni : forall m, In m [Example.unset_entry] ->
                          inherited (category_key m) = false).
  { intros m [<-|[]]. reflexivity. }
  split; [exact Hni|].
  destruct (C9_unset_category_grouped [Example.unset_entry] Hni)
    as (categories & Hb & Hgroup).
  destruct (Hgroup Example.unset_entry [] eq_refl) as (Hin & _ & Huniq & _).
  exists categories. split; [exact Hb|]. split; [exact Hin|].
  intros c' Hc' Hkey. now rewrite (Huniq c' Hc' Hkey).
Defined.

(** C9 (the sentence of the specification, on the code): the category of
    an entry without a category has no name at all, so no label names
    it. *)
Lemma C9_counterexample :
  buildCatalog [Example.unset_entry] =
  Ok [mkCategory VUndefined [item_of Example.unset_entry]] /\
  ~ unset_category_labelled.
Proof.
  split; [reflexivity|].
  intros (label & H).
  destruct (H [Example.unset_entry] Example.unset_entry (or_introl eq_refl)
              eq_refl) as (categories & c & Hb & Hin & Hname & _).
  injection Hb as <-. destruct Hin as [<-|[]]. discriminate Hname.
Qed.

(* ================================================================== *)
(** * The scenario of the specification *)
(* ================================================================== *)

(** [GET /api/ping] and [POST /api/echo] are bound, and the catalog has the
    one category ["util"] with both entries in bind order. *)
Example scenario_catalog :
  let st := loadModules Example.verbs Example.path_error Example.member
                        Example.root Example.scenario init in
  map (fun r => (r_method r, r_path r)) (routes st) =
  [("get", "/api/ping"); ("post", "/api/echo")] /\
  buildCatalog (apiModules st) =
  Ok [mkCategory (VStr "util")
        [mkItem (VStr "Ping") VUndefined "/api/ping" VUndefined (VStr "get");
         mkItem (VStr "Echo") VUndefined "/api/echo" VUndefined (VStr "post")]].
Proof. split; reflexivity. Qed.

(** The replies [{message: "pong"}] and [{x: 1, status: 201}] in their
    envelopes. *)
Example scenario_envelope :
  res_json Example.settings (VObj [("message", VStr "pong")]) =
  Ok (VObj [("status", VNum 200); ("creator", VStr "Rynn");
            ("message", VStr "pong")]) /\
  res_json Example.settings (VObj [("x", VNum 1); ("status", VNum 201)]) =
  Ok (VObj [("status", VNum 201); ("creator", VStr "Rynn"); ("x", VNum 1)]).
Proof. split; reflexivity. Qed.

(* ================================================================== *)
(** * Further properties on the example tree *)
(* ================================================================== *)

(** The route of the [search] unit. *)
Lemma routes_well_formed_witness :
  let r := mkRoute "get" "/api/search" Example.search in
  In r (routes (loadModules Example.verbs Example.path_error Example.member
                            Example.root Example.with_query init))
  /\ In (r_method r) Example.verbs /\ toLowerCase (r_method r) = r_method r.
Proof.
  split; [now left|].
  destruct (routes_well_formed Example.verbs Example.path_error Example.member
              Example.root Example.with_query
              (mkRoute "get" "/api/search" Example.search)
              (or_introl eq_refl)) as (_ & Hv & Hl & _).
  split; assumption.
Defined.

(** The unit whose method is [set] is listed and counted, not bound. *)
Lemma valid_unit_binds_or_fails_witness :
  invalid_format Example.setter = Ok false /\
  call_of (VObj [("name", VStr "Setter"); ("path", VStr "/x");
                 ("method", VStr "set")]) "set" "/api/x" /\
  ~ In "set" Example.verbs /\ Example.member "set" "/api/x" = Returned /\
  let st' := load_candidate Example.verbs Example.path_error Example.member
               ("/app/api/setter.js", LoadExports Example.setter) init in
  routes st' = [] /\ length (apiModules st') = 1 /\ totalRoutes st' = 1 /\
  console st' = [].
Proof.
  assert (Hcall : call_of (VObj [("name", VStr "Setter"); ("path", VStr "/x");
                                 ("method", VStr "set")]) "set" "/api/x").
  { exists "/x", (VStr "set"). repeat split; reflexivity. }
  assert (Hnot : ~ In "set" Example.verbs).
  { intros [H|[H|[H|[H|[H|[H|[H|[]]]]]]]]; discriminate H. }
  split; [reflexivity|]. split; [exact Hcall|]. split; [exact Hnot|].
  split; [reflexivity|].
  destruct (proj1 (valid_unit_binds_or_fails Example.verbs Example.path_error
                     Example.member "/app/api/setter.js" Example.setter _ init
                     eq_refl eq_refl) "set" "/api/x" Hcall)
    as (_ & _ & Hret & _).
  exact (Hret Hnot eq_refl).
Defined.

(** The creator of the example settings. *)
Lemma creator_configured_or_default_witness :
  Example.settings <> VNull /\ Example.settings <> VUndefined /\
  exists creator,
    configured_creator Example.settings = Ok creator /\
    truthy creator = true /\ creator = VStr "Rynn".
Proof.
  assert (Hn : Example.settings <> VNull) by discriminate.
  assert (Hu : Example.settings <> VUndefined) by discriminate.
  split; [exact Hn|]. split; [exact Hu|].
  destruct (creator_configured_or_default Example.settings Hn Hu)
    as (creator & Hc & Ht & Hconf & _).
  exists creator. split; [exact Hc|]. split; [exact Ht|].
  exact (Hconf _ (VStr "Rynn") eq_refl eq_refl eq_refl).
Defined.

(** Three entries in the categories [b], [a], [b]: the catalog has [b]
    before [a]. *)
Lemma categories_in_first_use_order_witness :
  (forall m, In m Example.three_entries ->
             inherited (category_key m) = false /\
             array_index (category_key m) = None) /\
  exists categories,
    buildCatalog Example.three_entries = Ok categories /\
    map (fun c => to_string (c_name c)) categories = ["b"; "a"].
Proof.
  assert (H : forall m, In m Example.three_entries ->
                        inherited (category_key m) = false /\
                        array_index (category_key m) = None).
  { intros m [<-|[<-|[<-|[]]]]; split; reflexivity. }
  split; [exact H|].
  exact (categories_in_first_use_order Example.three_entries H).
Defined.

Lemma catalog_lists_each_module_once_witness :
  buildCatalog Example.three_entries =
  Ok [mkCategory (VStr "b") [item_of (Example.entry "One" "b" "/api/one");
                             item_of (Example.entry "Three" "b" "/api/three")];
      mkCategory (VStr "a") [item_of (Example.entry "Two" "a" "/api/two")]] /\
  Permutation
    [item_of (Example.entry "One" "b" "/api/one");
     item_of (Example.entry "Three" "b" "/api/three");
     item_of (Example.entry "Two" "a" "/api/two")]
    (map item_of Example.three_entries).
Proof.
  split; [reflexivity|].
  exact (catalog_lists_each_module_once Example.three_entries _ eq_refl).
Defined.

(** A unit with the path [/info] is bound at the path of the catalog
    endpoint. *)
Lemma plugin_route_on_builtin_path_witness :
  let r := mkRoute "get" "/api/info" Example.info in
  In r (routes (loadModules Example.verbs Example.path_error Example.member
                            Example.root Example.with_info init))
  /\ In (r_path r) builtin_paths /\ r_path r = "/api/info".
Proof.
  split; [now left|]. split; [now left|].
  exact (plugin_route_on_builtin_path Example.verbs Example.path_error
           Example.member Example.root
           Example.with_info (mkRoute "get" "/api/info" Example.info)
           (or_introl eq_refl) (or_introl eq_refl)).
Defined.

(** The [search] unit, whose path has one ['?']. *)
Lemma catalog_path_of_descriptor_witness :
  classify Example.verbs Example.path_error Example.member
           (LoadExports Example.search) =
  Bound (mkRoute "get" "/api/search" Example.search)
        (mkApiModule (VStr "Search") VUndefined (VStr "tools")
                     "/api/search?q=" VUndefined (VStr "GET")) /\
  r_path (mkRoute "get" "/api/search" Example.search) = "/api/search" /\
  am_path (mkApiModule (VStr "Search") VUndefined (VStr "tools")
                       "/api/search?q=" VUndefined (VStr "GET")) =
  "/api/search?q=".
Proof.
  split; [reflexivity|].
  exact (proj1 (proj2 (catalog_path_of_descriptor Example.verbs
                         Example.path_error Example.member
                         Example.search _ "/search?q=" _ _
                         eq_refl eq_refl eq_refl))
               "/search" "q=" eq_refl eq_refl eq_refl).
Defined.

(** The log of the example tree. *)
Lemma diagnostics_name_candidates_witness :
  let l := ErrorLoading "/app/api/tools/broken.js" (Thrown "Unexpected token") in
  In l (console (loadModules Example.verbs Example.path_error Example.member
                             Example.root Example.tree init)) /\
  exists load,
    In (line_path l, load) (candidates Example.root Example.tree) /\
    binds Example.verbs Example.path_error Example.member
          (line_path l, load) = false.
Proof.
  split; [right; now left|].
  exact (proj1 (diagnostics_name_candidates Example.verbs Example.path_error
                  Example.member Example.root Example.tree
                  (ErrorLoading "/app/api/tools/broken.js"
                                (Thrown "Unexpected token"))
                  (or_intror (or_introl eq_refl)))).
Defined.

(** The reply [{x: 1, status: 201}] of the scenario. *)
Lemma reply_layout_witness :
  NoDup (map fst [("x", VNum 1); ("status", VNum 201)]) /\
  (forall k, In k (map fst [("x", VNum 1); ("status", VNum 201)]) ->
             array_index k = None) /\
  configured_creator Example.settings = Ok (VStr "Rynn") /\
  res_json Example.settings (VObj [("x", VNum 1); ("status", VNum 201)]) =
  Ok (VObj [("status", VNum 201); ("creator", VStr "Rynn"); ("x", VNum 1)]).
Proof.
  assert (Hnd : NoDup (map fst [("x", VNum 1); ("status", VNum 201)])).
  { repeat constructor; simpl; intuition discriminate. }
  assert (Hidx : forall k,
            In k (map fst [("x", VNum 1); ("status", VNum 201)]) ->
            array_index k = None).
  { intros k [<-|[<-|[]]]; reflexivity. }
  split; [exact Hnd|]. split; [exact Hidx|]. split; [reflexivity|].
  exact (reply_layout Example.settings _ (VStr "Rynn") Hnd Hidx eq_refl).
Defined.
